(** * Adaptive Metropolis proposal of kernel_hmc: model and properties

    Shallow embedding of [kernel_hmc/proposals/adaptive_metropolis.py].

    Numbers are modelled as real numbers ([R]): the arithmetic of the
    source on means and covariances is read as the exact arithmetic it
    rounds.  [np.exp] and [np.log] are not: where the source calls them, the
    rounding of the result decides whether a bound is strict (the exponential
    of a very negative number is zero in binary64, the exponential of a
    number within half a unit in the last place of zero is one), so the two
    are collaborators of the model, as the factorisation routines are.
    A one-dimensional numpy array is a [list R], a two-dimensional one is the
    list of its rows.  The controller object is a record that is threaded
    through its methods; a method returns its outcome together with the
    object as the call leaves it, also when it raises. *)

From Stdlib Require Import Reals List Lia Lra Bool Arith.
From Stdlib Require Import Sorting.Sorted Sorting.Permutation.
Import ListNotations.

Local Open Scope R_scope.

(** ** Outcomes *)

(** The exceptions of the source, under the names of the error taxonomy:
    a failed [assert] on a weight, a rate or a schedule is [InvalidParameter],
    a failed [assert] on a length or a shape is [DimensionMismatch] (both are
    [AssertionError] in the source), the [ValueError] of [proposal] is
    [NotReady], [LinAlgError] is raised by the dense factorisation, and
    [TypeError] stands for the use of [None] as a number, an array or a
    function. *)
Inductive exn : Type :=
| InvalidParameter
| DimensionMismatch
| NotReady
| LinAlgError
| TypeError.

Inductive result (A : Type) : Type :=
| Ok (a : A)
| Raise (e : exn).

Arguments Ok {A} a.
Arguments Raise {A} e.

Definition bind {A B : Type} (r : result A) (k : A -> result B) : result B :=
  match r with
  | Ok a => k a
  | Raise e => Raise e
  end.

Notation "x <- r ;; k" := (bind r (fun x => k))
  (at level 61, r at next level, right associativity).
Notation "' p <- r ;; k" := (bind r (fun p => k))
  (at level 61, p pattern, r at next level, right associativity).

(** The [assert] statement. *)
Definition assert (b : bool) (e : exn) : result unit :=
  if b then Ok tt else Raise e.

(** ** Comparisons of real numbers as booleans *)

Definition Rleb (x y : R) : bool := if Rle_dec x y then true else false.
Definition Rltb (x y : R) : bool := if Rlt_dec x y then true else false.

(** ** The numpy operations the source uses *)

Module Np.

Definition vec : Type := list R.
Definition mat : Type := list vec.

(** Elementwise operation on two arrays of one shape. *)
Fixpoint zip_with {A B C : Type} (f : A -> B -> C) (l : list A) (l' : list B) : list C :=
  match l, l' with
  | a :: r, b :: r' => f a b :: zip_with f r r'
  | _, _ => []
  end.

Definition vget (v : vec) (i : nat) : R := nth i v 0.
Definition mget (M : mat) (i j : nat) : R := nth j (nth i M []) 0.

Definition nrows (M : mat) : nat := length M.
Definition ncols (M : mat) : nat := length (hd [] M).

(** [M.shape == (n, m)]: a numpy array is rectangular, so on the lists that
    represent one this is the comparison of the two entries of [shape]. *)
Definition shape_is (M : mat) (n m : nat) : bool :=
  (length M =? n)%nat && forallb (fun r => (length r =? m)%nat) M.

Definition mk_vec (n : nat) (f : nat -> R) : vec := map f (seq 0 n).
Definition mk_mat (n m : nat) (f : nat -> nat -> R) : mat :=
  map (fun i => mk_vec m (f i)) (seq 0 n).

(** [np.zeros(D)] and [np.eye(D)]. *)
Definition zeros (D : nat) : vec := repeat 0 D.
Definition eye (D : nat) : mat :=
  mk_mat D D (fun i j => if (i =? j)%nat then 1 else 0).

(** [c * v], [u + v], [u - v] on vectors; [c * M], [A + B] on matrices. *)
Definition vscale (c : R) (v : vec) : vec := map (Rmult c) v.
Definition vadd (u v : vec) : vec := zip_with Rplus u v.
Definition vsub (u v : vec) : vec := zip_with Rminus u v.
Definition mscale (c : R) (M : mat) : mat := map (vscale c) M.
Definition madd (A B : mat) : mat := zip_with vadd A B.

(** [f 0 + ... + f (n-1)]. *)
Fixpoint sum_n (n : nat) (f : nat -> R) : R :=
  match n with
  | O => 0
  | S k => sum_n k f + f k
  end.

(** [M.T], [np.dot(A, B)], [np.dot(M, v)] and [np.outer(u, v)]. *)
Definition transpose (M : mat) : mat :=
  mk_mat (ncols M) (nrows M) (fun i j => mget M j i).
Definition dot (A B : mat) : mat :=
  mk_mat (nrows A) (ncols B)
         (fun i j => sum_n (ncols A) (fun k => mget A i k * mget B k j)).
Definition dotv (M : mat) (v : vec) : vec :=
  mk_vec (nrows M) (fun i => sum_n (ncols M) (fun k => mget M i k * vget v k)).
Definition outer (u v : vec) : mat :=
  map (fun a => map (fun b => a * b) v) u.

(** [np.sort(l)]: the values of [l] in ascending order. *)
Fixpoint insert_sorted (x : R) (l : list R) : list R :=
  match l with
  | [] => [x]
  | y :: r => if Rleb x y then x :: y :: r else y :: insert_sorted x r
  end.
Definition sort (l : list R) : list R := fold_right insert_sorted [] l.

(** [np.allclose(a, b)] with its default tolerances:
    [|a - b| <= atol + rtol * |b|] at every index. *)
Definition rtol : R := 1 / 100000.
Definition atol : R := 1 / 100000000.
Definition isclose (a b : R) : bool := Rleb (Rabs (a - b)) (atol + rtol * Rabs b).
Definition allclose (a b : list R) : bool :=
  forallb (fun p => isclose (fst p) (snd p)) (combine a b).

(** [np.all(l >= 0)]. *)
Definition all_nonneg (l : list R) : bool := forallb (fun x => Rleb 0 x) l.

(** [np.mean(Z, axis=0)]: the mean of every column of [Z]. *)
Definition mean_axis0 (Z : mat) : vec :=
  mk_vec (ncols Z) (fun j => sum_n (nrows Z) (fun k => mget Z k j) / INR (nrows Z)).

(** [np.cov(X)]: every row of [X] is a variable, every column an observation;
    the products of the centred rows are divided by the number of
    observations minus one. *)
Definition cov (X : mat) : mat :=
  let N := ncols X in
  let avg := fun i => sum_n N (fun k => mget X i k) / INR N in
  mk_mat (nrows X) (nrows X)
         (fun i j => sum_n N (fun k => (mget X i k - avg i) * (mget X j k - avg j))
                     / (INR N - 1)).

End Np.

Import Np.

(** ** Collaborators that are not part of this file of the repository *)

(** The target density: an object with a [log_pdf] method.
    [assert_implements_log_pdf_and_grad(target, assert_grad=False)] checks
    that the method exists, which the type of the record guarantees. *)
Record Target : Type := mkTarget { log_pdf : vec -> R }.

(** Modelled from the spec: [kernel_hmc.densities.gaussian.sample_gaussian]
    is imported by the source and is not part of it.  With [N=1] and
    [is_cholesky=True] it returns the one draw [mu + Sigma . z], where [z] is
    the standard normal vector drawn for this call; the draw is an explicit
    argument here. *)
Definition sample_gaussian (z : vec) (mu : vec) (Sigma : mat) : vec :=
  vadd (dotv Sigma z) mu.

(** ** The two covariance updates *)

(** The [d]-th basis vector of length [D] scaled by [c]:
    [e_d[:] = 0; e_d[d] = c]. *)
Definition e_d (D d : nat) (c : R) : vec :=
  mk_vec D (fun i => if (i =? d)%nat then c else 0).

Section Updates.

(** [choldate.cholupdate(R, x)], which updates [R] in place, as the function
    from the arguments to the updated [R]; and [np.linalg.cholesky], which
    raises [LinAlgError] where it returns [None] here. *)
Variable cholupdate : mat -> vec -> mat.
Variable cholesky : mat -> option mat.

Definition rank_one_update_mean_covariance_cholesky_lmbda
    (u : vec) (lmbda : R) (mean : option vec) (cov_L : option mat)
    (nu2 : R) (gamma2 : option R) : result (vec * mat) :=
  _ <- assert (Rleb 0 lmbda && Rleb lmbda 1) InvalidParameter ;;
  let D := length u in
  (* check if first term *)
  ' (mean, cov_L) <-
    match mean, cov_L with
    | Some mean, Some cov_L =>
        _ <- assert (length mean =? D)%nat DimensionMismatch ;;
        _ <- assert (shape_is cov_L D D) DimensionMismatch ;;
        Ok (mean, cov_L)
    | _, _ => Ok (zeros D, mscale nu2 (eye D))
    end ;;
  (* update mean *)
  let updated_mean := vadd (vscale (1 - lmbda) mean) (vscale lmbda u) in
  (* update Cholesky: first downscale existing Cholesky *)
  let update_cov_L := mscale (sqrt (1 - lmbda)) (transpose cov_L) in
  (* rank-one update of the centered new vector *)
  let update_vec := vscale (sqrt lmbda * sqrt nu2) (vsub u mean) in
  let update_cov_L := cholupdate update_cov_L update_vec in
  (* optional: add isotropic term, one rank-one update per basis vector *)
  let update_cov_L :=
    match gamma2 with
    | Some gamma2 =>
        fold_left (fun R d => cholupdate R (vscale (sqrt lmbda) (e_d D d (sqrt gamma2))))
                  (seq 0 D) update_cov_L
    | None => update_cov_L
    end in
  (* since cholupdate works on transposed version *)
  Ok (updated_mean, transpose update_cov_L).

Definition rank_update_mean_covariance_cholesky_lmbda_naive
    (u : vec) (lmbda : R) (mean : option vec) (cov_L : option mat)
    (nu2 : R) (gamma2 : option R) : result (vec * mat) :=
  _ <- assert (Rleb 0 lmbda && Rleb lmbda 1) InvalidParameter ;;
  let D := length u in
  (* check if first term *)
  ' (mean, cov_L) <-
    match mean, cov_L with
    | Some mean, Some cov_L =>
        _ <- assert (length mean =? D)%nat DimensionMismatch ;;
        _ <- assert (shape_is cov_L D D) DimensionMismatch ;;
        Ok (mean, cov_L)
    | _, _ => Ok (zeros D, mscale nu2 (eye D))
    end ;;
  (* update mean *)
  let updated_mean := vadd (vscale (1 - lmbda) mean) (vscale lmbda u) in
  (* centered new vector *)
  let update_vec := vsub u mean in
  (* reconstruct covariance, update *)
  let update_cov := dot cov_L (transpose cov_L) in
  let update_cov := madd (mscale (1 - lmbda) update_cov)
                         (mscale (lmbda * nu2) (outer update_vec update_vec)) in
  (* optional: add isotropic term if specified *)
  let update_cov :=
    match gamma2 with
    | Some gamma2 => madd update_cov (mscale gamma2 (eye (nrows update_cov)))
    | None => update_cov
    end in
  (* re-compute Cholesky *)
  match cholesky update_cov with
  | Some update_cov_L => Ok (updated_mean, update_cov_L)
  | None => Raise LinAlgError
  end.

End Updates.

(** ** The controller *)

Record AdaptiveMetropolis : Type := mkAM {
  target : Target;
  D : nat;
  nu2 : R;
  gamma2 : R;
  schedule : option (nat -> R);
  acc_star : option R;
  t : nat;
  mu : option vec;
  L_C : option mat
}.

Definition set_t (self : AdaptiveMetropolis) (v : nat) : AdaptiveMetropolis :=
  mkAM (target self) (D self) (nu2 self) (gamma2 self) (schedule self) (acc_star self)
       v (mu self) (L_C self).
Definition set_nu2 (self : AdaptiveMetropolis) (v : R) : AdaptiveMetropolis :=
  mkAM (target self) (D self) v (gamma2 self) (schedule self) (acc_star self)
       (t self) (mu self) (L_C self).
Definition set_mu (self : AdaptiveMetropolis) (v : option vec) : AdaptiveMetropolis :=
  mkAM (target self) (D self) (nu2 self) (gamma2 self) (schedule self) (acc_star self)
       (t self) v (L_C self).
Definition set_L_C (self : AdaptiveMetropolis) (v : option mat) : AdaptiveMetropolis :=
  mkAM (target self) (D self) (nu2 self) (gamma2 self) (schedule self) (acc_star self)
       (t self) (mu self) v.

(** A method: from the object to the outcome of the call and the object as
    the call leaves it. *)
Definition method (A : Type) : Type := AdaptiveMetropolis -> result A * AdaptiveMetropolis.

Definition ret {A : Type} (a : A) : method A := fun self => (Ok a, self).
Definition raise {A : Type} (e : exn) : method A := fun self => (Raise e, self).
Definition mbind {A B : Type} (m : method A) (k : A -> method B) : method B :=
  fun self =>
    match m self with
    | (Ok a, self') => k a self'
    | (Raise e, self') => (Raise e, self')
    end.
Definition get : method AdaptiveMetropolis := fun self => (Ok self, self).
Definition modify (f : AdaptiveMetropolis -> AdaptiveMetropolis) : method unit :=
  fun self => (Ok tt, f self).
(** A call of a function that does not touch the object. *)
Definition lift {A : Type} (r : result A) : method A := fun self => (r, self).

Notation "x <~ m ;;; k" := (mbind m (fun x => k))
  (at level 61, m at next level, right associativity).
Notation "' p <~ m ;;; k" := (mbind m (fun p => k))
  (at level 61, p pattern, m at next level, right associativity).

(** The number of schedule values probed by the constructor. *)
Definition probes : nat := 100.

(** [_initialise]: the counter starts at zero; with a schedule the estimate
    starts as the zero mean and the scaled identity, without one it is left
    for [set_batch_covariance]. *)
Definition _initialise (self : AdaptiveMetropolis) : AdaptiveMetropolis :=
  let self := set_t self 0 in
  match schedule self with
  | Some _ =>
      let self := set_mu self (Some (zeros (D self))) in
      set_L_C self (Some (mscale (sqrt (nu2 self)) (eye (D self))))
  | None =>
      let self := set_mu self None in
      set_L_C self None
  end.

(** [__init__].  The fields [t], [mu] and [L_C] do not exist before
    [_initialise] sets them. *)
Definition __init__ (target : Target) (D : nat) (nu2 gamma2 : R)
    (schedule : option (nat -> R)) (acc_star : option R) : result AdaptiveMetropolis :=
  let self := mkAM target D nu2 gamma2 schedule acc_star 0 None None in
  (* some sanity checks *)
  _ <- assert (match acc_star with
               | None => true
               | Some a => Rltb 0 a && Rltb a 1
               end) InvalidParameter ;;
  _ <- match schedule with
       | Some schedule =>
           let lmbdas := map schedule (seq 0 probes) in
           _ <- assert (all_nonneg lmbdas) InvalidParameter ;;
           assert (allclose (rev (sort lmbdas)) lmbdas) InvalidParameter
       | None => Ok tt
       end ;;
  Ok (_initialise self).

Section Controller.

(** [cholupdate] is [Some] when the optional package is installed
    ([cholupdate_available]), and [None] otherwise. *)
Variable cholupdate : option (mat -> vec -> mat).
Variable cholesky : mat -> option mat.

(** [np.exp] and [np.log] on binary64 numbers, as functions on the reals
    those numbers are. *)
Variable np_exp : R -> R.
Variable np_log : R -> R.

(** The branch on [cholupdate_available] in [update]: both branches pass
    the same arguments. *)
Definition covariance_update :
    vec -> R -> option vec -> option mat -> R -> option R -> result (vec * mat) :=
  match cholupdate with
  | Some cholupdate =>
      (* low-rank update of Cholesky, costs O(d^2) only *)
      rank_one_update_mean_covariance_cholesky_lmbda cholupdate
  | None =>
      (* naive, costs O(d^3) *)
      rank_update_mean_covariance_cholesky_lmbda_naive cholesky
  end.

(** [set_batch_covariance]: the mean is stored before the factorisation is
    attempted. *)
Definition set_batch_covariance (Z : mat) : method unit :=
  _ <~ modify (fun self => set_mu self (Some (mean_axis0 Z))) ;;;
  self <~ get ;;;
  match cholesky (madd (mscale (nu2 self) (cov (transpose Z)))
                       (mscale (gamma2 self) (eye (ncols Z)))) with
  | Some L => modify (fun self => set_L_C self (Some L))
  | None => raise LinAlgError
  end.

Definition _update_scaling (accept_prob : R) : method unit :=
  self <~ get ;;;
  match schedule self, acc_star self with
  | Some schedule, Some acc_star =>
      (* generate updating weight *)
      let lmbda := schedule (t self) in
      (* difference desired and actual acceptance rate *)
      let diff := accept_prob - acc_star in
      let new_log_nu2 := np_log (nu2 self) + lmbda * diff in
      modify (fun self => set_nu2 self (np_exp new_log_nu2))
  | _, _ => raise TypeError
  end.

Definition update (z_new : vec) (previous_accpept_prob : R) : method unit :=
  _ <~ modify (fun self => set_t self (t self + 1)) ;;;
  self <~ get ;;;
  match schedule self with
  | Some schedule =>
      (* generate updating weight *)
      let lmbda := schedule (t self) in
      ' (m, L) <~ lift (covariance_update z_new lmbda (mu self) (L_C self)
                                          (nu2 self) (Some (gamma2 self))) ;;;
      _ <~ modify (fun self => set_L_C (set_mu self (Some m)) (Some L)) ;;;
      (* update scaling parameter if wanted *)
      match acc_star self with
      | Some _ => _update_scaling previous_accpept_prob
      | None => ret tt
      end
  | None => ret tt
  end.

(** [proposal]: [z] is the standard normal draw of this call.  The method
    does not change the object. *)
Definition proposal (self : AdaptiveMetropolis) (z : vec)
    (current : vec) (current_log_pdf : option R) : result (vec * R * R) :=
  if match schedule self with Some _ => false | None => true end
     && (match mu self with Some _ => false | None => true end
         || match L_C self with Some _ => false | None => true end)
  then Raise NotReady
  else
    let current_log_pdf :=
      match current_log_pdf with
      | Some c => c
      | None => log_pdf (target self) current
      end in
    match L_C self with
    | Some L =>
        (* generate proposal *)
        let proposal := sample_gaussian z current L in
        let proposal_log_pdf := log_pdf (target self) proposal in
        (* compute acceptance prob, proposals probability cancels due to symmetry *)
        let acc_log_prob := Rmin 0 (proposal_log_pdf - current_log_pdf) in
        Ok (proposal, np_exp acc_log_prob, proposal_log_pdf)
    | None => Raise TypeError
    end.

End Controller.

(** ** Contracts of the numerical collaborators *)

(** [M] has [n] rows of length [m]. *)
Definition shape (n m : nat) (M : mat) : Prop :=
  length M = n /\ forall r, In r M -> length r = m.

Definition symmetric (n : nat) (M : mat) : Prop :=
  forall i j, (i < n)%nat -> (j < n)%nat -> mget M i j = mget M j i.

(** An upper (lower) triangular [n] by [n] matrix with a positive diagonal:
    the Cholesky factors the two collaborators work on. *)
Definition upper_factor (n : nat) (M : mat) : Prop :=
  shape n n M
  /\ (forall i j, (j < i)%nat -> (i < n)%nat -> mget M i j = 0)
  /\ (forall i, (i < n)%nat -> 0 < mget M i i).

Definition lower_factor (n : nat) (M : mat) : Prop :=
  shape n n M
  /\ (forall i j, (i < j)%nat -> (j < n)%nat -> mget M i j = 0)
  /\ (forall i, (i < n)%nat -> 0 < mget M i i).

(** [cholupdate(R, x)] on an upper triangular factor [R]: the updated [R] is
    again such a factor, and [R'^T R' = R^T R + x x^T]. *)
Definition cholupdate_spec (n : nat) (cholupdate : mat -> vec -> mat) : Prop :=
  forall R x, upper_factor n R -> length x = n ->
    upper_factor n (cholupdate R x)
    /\ dot (transpose (cholupdate R x)) (cholupdate R x)
       = madd (dot (transpose R) R) (outer x x).

(** [np.linalg.cholesky(M)] on a symmetric [M]: when it returns [L], [L] is
    a lower triangular factor with [L L^T = M]. *)
Definition cholesky_spec (n : nat) (cholesky : mat -> option mat) : Prop :=
  forall M L, shape n n M -> symmetric n M -> cholesky M = Some L ->
    lower_factor n L /\ dot L (transpose L) = M.

(** What the properties below need of [np.exp]: its values are never
    negative, it never decreases, and [np.exp(0.0)] is [1.0]. *)
Definition np_exp_spec (np_exp : R -> R) : Prop :=
  (forall x, 0 <= np_exp x)
  /\ (forall x y, x <= y -> np_exp x <= np_exp y)
  /\ np_exp 0 = 1.

(** [np.exp] at the two places where binary64 rounding decides a strict
    bound: an exponential below half the smallest positive binary64 number,
    [2^-1075], is returned as zero, and one within half a unit in the last
    place of one (above [1 - 2^-54] and below [1 + 2^-53]) is returned as
    one.  Used to instantiate the contract. *)
Definition exp64 (x : R) : R :=
  if Rltb (exp x) (/ 2 ^ 1075) then 0
  else if Rltb (1 - / 2 ^ 54) (exp x) && Rltb (exp x) (1 + / 2 ^ 53) then 1
  else exp x.

(** The two collaborators on one by one matrices, where both are a square
    root; used to instantiate the contracts. *)
Definition cholupdate_1x1 (R : mat) (x : vec) : mat :=
  [[sqrt (mget R 0 0 * mget R 0 0 + vget x 0 * vget x 0)]].

Definition cholesky_1x1 (M : mat) : option mat :=
  if Rltb 0 (mget M 0 0) then Some [[sqrt (mget M 0 0)]] else None.

(** ** Quantities the properties are stated with *)

(** The mean and factor the two updates start from: the given ones, or the
    ones of the first-term branch when one of them is absent. *)
Definition start_mean (D : nat) (mean : option vec) (cov_L : option mat) : vec :=
  match mean, cov_L with
  | Some mean, Some _ => mean
  | _, _ => zeros D
  end.

Definition start_factor (D : nat) (mean : option vec) (cov_L : option mat) (nu2 : R) : mat :=
  match mean, cov_L with
  | Some _, Some cov_L => cov_L
  | _, _ => mscale nu2 (eye D)
  end.

(** The dimension checks of the two updates pass. *)
Definition dims_ok (D : nat) (mean : option vec) (cov_L : option mat) : Prop :=
  match mean, cov_L with
  | Some mean, Some cov_L => length mean = D /\ shape D D cov_L
  | _, _ => True
  end.

(** The matrix the fallback strategy hands to the dense factorisation. *)
Definition naive_update_cov (u : vec) (lmbda : R) (mean : vec) (cov_L : mat)
    (nu2 : R) (gamma2 : option R) : mat :=
  let update_cov :=
    madd (mscale (1 - lmbda) (dot cov_L (transpose cov_L)))
         (mscale (lmbda * nu2) (outer (vsub u mean) (vsub u mean))) in
  match gamma2 with
  | Some gamma2 => madd update_cov (mscale gamma2 (eye (nrows update_cov)))
  | None => update_cov
  end.

(** The rule of the specification:
    [(1-lmbda)*oldCov + lmbda*(nu2*(u-mean)(u-mean)^T + gamma2*I)]. *)
Definition rule_cov (u : vec) (lmbda : R) (mean : vec) (cov_L : mat)
    (nu2 gamma2 : R) : mat :=
  madd (mscale (1 - lmbda) (dot cov_L (transpose cov_L)))
       (mscale lmbda (madd (mscale nu2 (outer (vsub u mean) (vsub u mean)))
                           (mscale gamma2 (eye (length u))))).

(** The upper triangular factor the efficient strategy ends with, before it
    is transposed back. *)
Definition rank_one_factor (cholupdate : mat -> vec -> mat) (u : vec) (lmbda : R)
    (mean : vec) (cov_L : mat) (nu2 : R) (gamma2 : option R) : mat :=
  let R1 := cholupdate (mscale (sqrt (1 - lmbda)) (transpose cov_L))
                       (vscale (sqrt lmbda * sqrt nu2) (vsub u mean)) in
  match gamma2 with
  | Some gamma2 =>
      fold_left (fun R d => cholupdate R (vscale (sqrt lmbda)
                                                 (e_d (length u) d (sqrt gamma2))))
                (seq 0 (length u)) R1
  | None => R1
  end.

(** The mean both strategies return. *)
Definition blended_mean (u : vec) (lmbda : R) (mean : vec) : vec :=
  vadd (vscale (1 - lmbda) mean) (vscale lmbda u).

(** The matrix [set_batch_covariance] hands to the dense factorisation. *)
Definition batch_cov (self : AdaptiveMetropolis) (Z : mat) : mat :=
  madd (mscale (nu2 self) (cov (transpose Z))) (mscale (gamma2 self) (eye (ncols Z))).

(** The isotropic variance in force: [gamma2], or none. *)
Definition isotropic (gamma2 : option R) : R :=
  match gamma2 with
  | Some gamma2 => gamma2
  | None => 0
  end.

(** The tolerance [allclose] grants at the value [b]. *)
Definition tol (b : R) : R := atol + rtol * Rabs b.

(** The states a controller can be in: the one its constructor returns, and
    the ones a call of [update] or [set_batch_covariance] leaves it in,
    whatever the outcome of the call. *)
Inductive reachable (cholupdate : option (mat -> vec -> mat))
    (cholesky : mat -> option mat) (np_exp np_log : R -> R)
    : AdaptiveMetropolis -> Prop :=
| reach_init target D nu2 gamma2 schedule acc_star self :
    __init__ target D nu2 gamma2 schedule acc_star = Ok self ->
    reachable cholupdate cholesky np_exp np_log self
| reach_update self z_new previous_accpept_prob r self' :
    reachable cholupdate cholesky np_exp np_log self ->
    update cholupdate cholesky np_exp np_log z_new previous_accpept_prob self = (r, self') ->
    reachable cholupdate cholesky np_exp np_log self'
| reach_batch self Z r self' :
    reachable cholupdate cholesky np_exp np_log self ->
    set_batch_covariance cholesky Z self = (r, self') ->
    reachable cholupdate cholesky np_exp np_log self'.

(** An object with a schedule always holds a mean and a factor. *)
Definition estimate_present (self : AdaptiveMetropolis) : Prop :=
  schedule self <> None -> mu self <> None /\ L_C self <> None.

(** A run of calls on one controller: [calls self n self'] when [self']
    is what [self] has become after [n] calls of [update] and any number of
    calls of [set_batch_covariance], in any order and whatever their
    outcomes. *)
Inductive calls (cholupdate : option (mat -> vec -> mat))
    (cholesky : mat -> option mat) (np_exp np_log : R -> R)
    : AdaptiveMetropolis -> nat -> AdaptiveMetropolis -> Prop :=
| calls_none self : calls cholupdate cholesky np_exp np_log self 0 self
| calls_update self n self1 z_new previous_accpept_prob r self' :
    calls cholupdate cholesky np_exp np_log self n self1 ->
    update cholupdate cholesky np_exp np_log z_new previous_accpept_prob self1 = (r, self') ->
    calls cholupdate cholesky np_exp np_log self (S n) self'
| calls_batch self n self1 Z r self' :
    calls cholupdate cholesky np_exp np_log self n self1 ->
    set_batch_covariance cholesky Z self1 = (r, self') ->
    calls cholupdate cholesky np_exp np_log self n self'.

(** ** Example objects *)

Definition flat_target : Target := mkTarget (fun _ => 0).

(** [schedule(t) = 1/(t+1)]. *)
Definition harmonic (t : nat) : R := 1 / (INR t + 1).


(** A one-dimensional controller without a schedule, as [__init__] leaves it. *)
Definition unscheduled : AdaptiveMetropolis :=
  _initialise (mkAM flat_target 1 1 (1 / 100) None None 0 None None).

(** A controller configured for dimension three, and a batch of two
    one-dimensional samples. *)
Definition unscheduled_3 : AdaptiveMetropolis :=
  _initialise (mkAM flat_target 3 1 (1 / 100) None None 0 None None).
Definition batch_1d : mat := [[0]; [2]].

(** A one-dimensional controller with the harmonic schedule and without
    (with) a target acceptance rate, as [__init__] leaves it. *)
Definition scheduled : AdaptiveMetropolis :=
  _initialise (mkAM flat_target 1 1 (1 / 100) (Some harmonic) None 0 None None).
Definition adapting : AdaptiveMetropolis :=
  _initialise (mkAM flat_target 1 1 (1 / 100) (Some harmonic) (Some (234 / 1000)) 0 None None).

(** A three-dimensional controller with the harmonic schedule, and a
    one-dimensional controller without schedule and without isotropic term,
    as [__init__] leaves them. *)
Definition scheduled_3 : AdaptiveMetropolis :=
  _initialise (mkAM flat_target 3 1 (1 / 100) (Some harmonic) None 0 None None).
Definition unscheduled_bare : AdaptiveMetropolis :=
  _initialise (mkAM flat_target 1 1 0 None None 0 None None).

(** The controller with another schedule in place of its own. *)
Definition set_schedule (self : AdaptiveMetropolis) (v : option (nat -> R))
    : AdaptiveMetropolis :=
  mkAM (target self) (D self) (nu2 self) (gamma2 self) v (acc_star self)
       (t self) (mu self) (L_C self).

(** The log-density of a standard normal in one dimension, up to its
    constant, and a scheduled controller on it. *)
Definition normal_target : Target := mkTarget (fun v => - (vget v 0 * vget v 0) / 2).
Definition scheduled_normal : AdaptiveMetropolis :=
  _initialise (mkAM normal_target 1 1 (1 / 100) (Some harmonic) None 0 None None).

(** A controller whose [nu2] is the smallest positive binary64 number,
    with the constant schedule one and the target rate 0.99; and one with
    [nu2 = 1], the harmonic schedule and the target rate 0.25. *)
Definition constant_one (t : nat) : R := 1.
Definition tiny_scale : AdaptiveMetropolis :=
  _initialise (mkAM flat_target 1 (/ 2 ^ 1074) (1 / 100) (Some constant_one)
                    (Some (99 / 100)) 0 None None).
Definition adapting_quarter : AdaptiveMetropolis :=
  _initialise (mkAM flat_target 1 1 (1 / 100) (Some harmonic) (Some (1 / 4)) 0 None None).

(** A schedule that is constantly two, and a batch of two equal samples. *)
Definition constant_two (t : nat) : R := 2.
Definition batch_const : mat := [[1]; [1]].

(** * Properties *)

(** ** Boolean comparisons *)

Lemma Rleb_true (x y : R) : Rleb x y = true <-> x <= y.
Proof.
  unfold Rleb; destruct (Rle_dec x y); split; intro; auto; discriminate.
Qed.

Lemma Rleb_false (x y : R) : Rleb x y = false <-> y < x.
Proof.
  unfold Rleb; destruct (Rle_dec x y); split; intro; auto; try discriminate; lra.
Qed.

Lemma Rltb_true (x y : R) : Rltb x y = true <-> x < y.
Proof.
  unfold Rltb; destruct (Rlt_dec x y); split; intro; auto; discriminate.
Qed.

Lemma Rltb_false (x y : R) : Rltb x y = false <-> y <= x.
Proof.
  unfold Rltb; destruct (Rlt_dec x y); split; intro; auto; try discriminate; lra.
Qed.

Lemma lmbda_check (lmbda : R) :
  Rleb 0 lmbda && Rleb lmbda 1 = true <-> 0 <= lmbda <= 1.
Proof.
  rewrite andb_true_iff, !Rleb_true; tauto.
Qed.

(** ** Arrays *)

Lemma length_zip_with {A B C : Type} (f : A -> B -> C) (l : list A) (l' : list B) :
  length (zip_with f l l') = Nat.min (length l) (length l').
Proof.
  revert l'; induction l as [|a l IH]; intros [|b l']; simpl; auto.
Qed.

Lemma nth_zip_with {A B C : Type} (f : A -> B -> C) (l : list A) (l' : list B)
    (i : nat) (da : A) (db : B) (dc : C) :
  (i < length l)%nat -> (i < length l')%nat ->
  nth i (zip_with f l l') dc = f (nth i l da) (nth i l' db).
Proof.
  revert l' i; induction l as [|a l IH]; intros [|b l'] [|i]; simpl; intros; try lia; auto.
  apply IH; lia.
Qed.

Lemma length_mk_vec (n : nat) (f : nat -> R) : length (mk_vec n f) = n.
Proof. unfold mk_vec; now rewrite length_map, length_seq. Qed.

Lemma vget_mk_vec (n : nat) (f : nat -> R) (i : nat) :
  (i < n)%nat -> vget (mk_vec n f) i = f i.
Proof.
  intros Hi; unfold vget, mk_vec.
  rewrite (nth_indep _ 0 (f 0%nat)) by (now rewrite length_map, length_seq).
  rewrite map_nth, seq_nth; auto.
Qed.

Lemma length_mk_mat (n m : nat) (f : nat -> nat -> R) : length (mk_mat n m f) = n.
Proof. unfold mk_mat; now rewrite length_map, length_seq. Qed.

Lemma nth_mk_mat (n m : nat) (f : nat -> nat -> R) (i : nat) :
  (i < n)%nat -> nth i (mk_mat n m f) [] = mk_vec m (f i).
Proof.
  intros Hi; unfold mk_mat.
  rewrite (nth_indep _ [] (mk_vec m (f 0%nat))) by (now rewrite length_map, length_seq).
  rewrite (map_nth (fun i => mk_vec m (f i))), seq_nth; auto.
Qed.

Lemma mget_mk_mat (n m : nat) (f : nat -> nat -> R) (i j : nat) :
  (i < n)%nat -> (j < m)%nat -> mget (mk_mat n m f) i j = f i j.
Proof.
  intros Hi Hj; unfold mget; rewrite nth_mk_mat by auto.
  now apply vget_mk_vec.
Qed.

Lemma shape_mk_mat (n m : nat) (f : nat -> nat -> R) : shape n m (mk_mat n m f).
Proof.
  split; [apply length_mk_mat|].
  intros r Hr; unfold mk_mat in Hr; apply in_map_iff in Hr as (i & <- & _).
  apply length_mk_vec.
Qed.

Lemma shape_row (n m : nat) (M : mat) (i : nat) :
  shape n m M -> (i < n)%nat -> length (nth i M []) = m.
Proof.
  intros [Hn Hr] Hi; apply Hr, nth_In; lia.
Qed.

Lemma shape_ncols (n m : nat) (M : mat) :
  shape (S n) m M -> ncols M = m.
Proof.
  intros [Hn Hr]; unfold ncols; destruct M as [|r M]; [discriminate|].
  apply Hr; now left.
Qed.

Lemma shape_is_true (M : mat) (n m : nat) :
  shape_is M n m = true <-> shape n m M.
Proof.
  unfold shape_is, shape; rewrite andb_true_iff, Nat.eqb_eq, forallb_forall.
  split; intros [H1 H2]; split; auto; intros r Hr.
  - now apply Nat.eqb_eq, H2.
  - now apply Nat.eqb_eq, H2.
Qed.

Lemma vec_ext (u v : vec) :
  length u = length v ->
  (forall i, (i < length u)%nat -> vget u i = vget v i) -> u = v.
Proof.
  intros Hl H; apply (nth_ext u v 0 0); auto.
Qed.

Lemma mat_ext (n m : nat) (A B : mat) :
  shape n m A -> shape n m B ->
  (forall i j, (i < n)%nat -> (j < m)%nat -> mget A i j = mget B i j) -> A = B.
Proof.
  intros HA HB H; apply (nth_ext A B [] []).
  - destruct HA, HB; congruence.
  - intros i Hi; assert (Hin : (i < n)%nat) by (destruct HA; lia).
    apply vec_ext.
    + now rewrite (shape_row n m A), (shape_row n m B).
    + intros j Hj; rewrite (shape_row n m A) in Hj by auto; now apply H.
Qed.

Lemma length_zeros (n : nat) : length (zeros n) = n.
Proof. apply repeat_length. Qed.

Lemma vget_zeros (n i : nat) : vget (zeros n) i = 0.
Proof.
  unfold vget, zeros; revert i; induction n; intros [|i]; simpl; auto.
Qed.

Lemma length_vscale (c : R) (v : vec) : length (vscale c v) = length v.
Proof. apply length_map. Qed.

Lemma vget_vscale (c : R) (v : vec) (i : nat) :
  vget (vscale c v) i = c * vget v i.
Proof.
  unfold vget, vscale; rewrite <- (Rmult_0_r c) at 1; apply map_nth.
Qed.

Lemma length_vadd (u v : vec) :
  length u = length v -> length (vadd u v) = length u.
Proof. intros H; unfold vadd; rewrite length_zip_with; lia. Qed.

Lemma vget_vadd (u v : vec) (i : nat) :
  (i < length u)%nat -> (i < length v)%nat ->
  vget (vadd u v) i = vget u i + vget v i.
Proof. intros; unfold vget, vadd; now apply nth_zip_with. Qed.

Lemma length_vsub (u v : vec) :
  length u = length v -> length (vsub u v) = length u.
Proof. intros H; unfold vsub; rewrite length_zip_with; lia. Qed.

Lemma vget_vsub (u v : vec) (i : nat) :
  (i < length u)%nat -> (i < length v)%nat ->
  vget (vsub u v) i = vget u i - vget v i.
Proof. intros; unfold vget, vsub; now apply nth_zip_with. Qed.

(** ** The controller: frame lemmas *)

Ltac unfold_method :=
  unfold update, _update_scaling, set_batch_covariance,
         mbind, modify, get, lift, ret, raise in *.

Section ControllerFacts.

Variable cholupdate : option (mat -> vec -> mat).
Variable cholesky : mat -> option mat.
Variables np_exp np_log : R -> R.

(** What a call of [update] on an object with a schedule does, in terms of
    the outcome of the covariance update it delegates to. *)
Lemma update_scheduled (self : AdaptiveMetropolis) (z_new : vec) (p : R) (sch : nat -> R) :
  schedule self = Some sch ->
  update cholupdate cholesky np_exp np_log z_new p self =
    match covariance_update cholupdate cholesky z_new (sch (t self + 1)%nat)
            (mu self) (L_C self) (nu2 self) (Some (gamma2 self)) with
    | Raise e => (Raise e, set_t self (t self + 1))
    | Ok (m, L) =>
        let self1 := set_L_C (set_mu (set_t self (t self + 1)) (Some m)) (Some L) in
        match acc_star self with
        | Some a =>
            (Ok tt, set_nu2 self1 (np_exp (np_log (nu2 self) + sch (t self + 1)%nat * (p - a))))
        | None => (Ok tt, self1)
        end
    end.
Proof.
  intros Hs; unfold_method; simpl; rewrite Hs; simpl.
  destruct (covariance_update _ _ _ _ _ _ _ _) as [[m L]|e]; simpl; auto.
  destruct (acc_star self) as [a|] eqn:Ha; simpl; auto.
  rewrite Hs, Ha; reflexivity.
Qed.

Lemma update_unscheduled (self : AdaptiveMetropolis) (z_new : vec) (p : R) :
  schedule self = None ->
  update cholupdate cholesky np_exp np_log z_new p self = (Ok tt, set_t self (t self + 1)).
Proof.
  intros Hs; unfold_method; simpl; rewrite Hs; reflexivity.
Qed.

Lemma update_raises (self self' : AdaptiveMetropolis) (z_new : vec) (p : R) (e : exn) :
  update cholupdate cholesky np_exp np_log z_new p self = (Raise e, self') ->
  self' = set_t self (t self + 1).
Proof.
  destruct (schedule self) as [sch|] eqn:Hs.
  - rewrite (update_scheduled _ _ _ sch Hs).
    destruct (covariance_update _ _ _ _ _ _ _ _) as [[m L]|e'].
    + simpl; destruct (acc_star self); intros H; discriminate H.
    + intros H; now inversion H.
  - rewrite update_unscheduled by auto; intros H; discriminate H.
Qed.

Lemma init_returns target D nu2 gamma2 sch acc self :
  __init__ target D nu2 gamma2 sch acc = Ok self ->
  self = _initialise (mkAM target D nu2 gamma2 sch acc 0 None None).
Proof.
  unfold __init__.
  destruct (assert _ InvalidParameter) as [[]|e]; [|discriminate 1].
  unfold bind at 1.
  match goal with |- (_ <- ?r ;; _) = _ -> _ => destruct r as [[]|e] end;
    [|discriminate 1].
  unfold bind; intros H; now inversion H.
Qed.

Lemma init_estimate_present target D nu2 gamma2 sch acc self :
  __init__ target D nu2 gamma2 sch acc = Ok self -> estimate_present self.
Proof.
  intros H; apply init_returns in H; subst self.
  unfold estimate_present, _initialise; destruct sch; cbn.
  - intros _; split; discriminate.
  - intros Hn; now elim Hn.
Qed.

Lemma update_estimate_present self z_new p r self' :
  estimate_present self ->
  update cholupdate cholesky np_exp np_log z_new p self = (r, self') ->
  estimate_present self'.
Proof.
  intros Hinv; destruct (schedule self) as [sch|] eqn:Hs.
  - rewrite (update_scheduled _ _ _ sch Hs).
    destruct (covariance_update _ _ _ _ _ _ _ _) as [[m L]|e].
    + simpl; destruct (acc_star self); intros H; inversion H; subst;
        unfold estimate_present; simpl; split; discriminate.
    + intros H; inversion H; subst; unfold estimate_present in *; simpl.
      apply Hinv.
  - rewrite update_unscheduled by auto; intros H; inversion H; subst.
    unfold estimate_present in *; simpl; apply Hinv.
Qed.

Lemma batch_estimate_present self Z r self' :
  estimate_present self ->
  set_batch_covariance cholesky Z self = (r, self') ->
  estimate_present self'.
Proof.
  intros Hinv; unfold_method; simpl.
  destruct (cholesky _); intros H; inversion H; subst;
    unfold estimate_present in *; simpl; intros Hn.
  - split; discriminate.
  - split; [discriminate|]; now apply Hinv.
Qed.

Lemma reachable_estimate_present self :
  reachable cholupdate cholesky np_exp np_log self -> estimate_present self.
Proof.
  induction 1 as [? ? ? ? ? ? ? Hi | ? ? ? ? ? _ IH Hu | ? ? ? ? _ IH Hb].
  - eapply init_estimate_present; eauto.
  - eapply update_estimate_present; eauto.
  - eapply batch_estimate_present; eauto.
Qed.

End ControllerFacts.

(** ** The two covariance updates: outcomes *)

Lemma dims_check (D : nat) (m : vec) (L : mat) :
  ((length m =? D)%nat = true /\ shape_is L D D = true) <-> dims_ok D (Some m) (Some L).
Proof.
  simpl; rewrite Nat.eqb_eq, shape_is_true; tauto.
Qed.

Section UpdateOutcomes.

Variable cholupdate : mat -> vec -> mat.
Variable cholesky : mat -> option mat.
Variables (u : vec) (lmbda : R) (mean : option vec) (cov_L : option mat).
Variables (nu2 : R) (gamma2 : option R).

Lemma rank_one_invalid :
  ~ (0 <= lmbda <= 1) ->
  rank_one_update_mean_covariance_cholesky_lmbda cholupdate u lmbda mean cov_L nu2 gamma2
  = Raise InvalidParameter.
Proof.
  intros H; unfold rank_one_update_mean_covariance_cholesky_lmbda.
  destruct (Rleb 0 lmbda && Rleb lmbda 1) eqn:E; [|reflexivity].
  apply lmbda_check in E; contradiction.
Qed.

Lemma naive_invalid :
  ~ (0 <= lmbda <= 1) ->
  rank_update_mean_covariance_cholesky_lmbda_naive cholesky u lmbda mean cov_L nu2 gamma2
  = Raise InvalidParameter.
Proof.
  intros H; unfold rank_update_mean_covariance_cholesky_lmbda_naive.
  destruct (Rleb 0 lmbda && Rleb lmbda 1) eqn:E; [|reflexivity].
  apply lmbda_check in E; contradiction.
Qed.

Lemma rank_one_mismatch :
  0 <= lmbda <= 1 -> ~ dims_ok (length u) mean cov_L ->
  rank_one_update_mean_covariance_cholesky_lmbda cholupdate u lmbda mean cov_L nu2 gamma2
  = Raise DimensionMismatch.
Proof.
  intros Hl Hd; unfold rank_one_update_mean_covariance_cholesky_lmbda.
  apply lmbda_check in Hl; rewrite Hl; cbn [assert bind].
  destruct mean as [m|]; [destruct cov_L as [L|]|]; try (elim Hd; exact I).
  destruct (length m =? length u)%nat eqn:E1; [|reflexivity].
  destruct (shape_is L (length u) (length u)) eqn:E2; [|reflexivity].
  elim Hd; apply dims_check; auto.
Qed.

Lemma naive_mismatch :
  0 <= lmbda <= 1 -> ~ dims_ok (length u) mean cov_L ->
  rank_update_mean_covariance_cholesky_lmbda_naive cholesky u lmbda mean cov_L nu2 gamma2
  = Raise DimensionMismatch.
Proof.
  intros Hl Hd; unfold rank_update_mean_covariance_cholesky_lmbda_naive.
  apply lmbda_check in Hl; rewrite Hl; cbn [assert bind].
  destruct mean as [m|]; [destruct cov_L as [L|]|]; try (elim Hd; exact I).
  destruct (length m =? length u)%nat eqn:E1; [|reflexivity].
  destruct (shape_is L (length u) (length u)) eqn:E2; [|reflexivity].
  elim Hd; apply dims_check; auto.
Qed.

Lemma rank_one_returns :
  0 <= lmbda <= 1 -> dims_ok (length u) mean cov_L ->
  rank_one_update_mean_covariance_cholesky_lmbda cholupdate u lmbda mean cov_L nu2 gamma2
  = Ok (blended_mean u lmbda (start_mean (length u) mean cov_L),
        transpose (rank_one_factor cholupdate u lmbda
                     (start_mean (length u) mean cov_L)
                     (start_factor (length u) mean cov_L nu2) nu2 gamma2)).
Proof.
  intros Hl Hd; unfold rank_one_update_mean_covariance_cholesky_lmbda.
  apply lmbda_check in Hl; rewrite Hl; cbn [assert bind].
  destruct mean as [m|]; [destruct cov_L as [L|]|]; cbn [start_mean start_factor];
    try (destruct gamma2; reflexivity).
  apply dims_check in Hd as [-> ->]; cbn [assert bind].
  destruct gamma2; reflexivity.
Qed.

Lemma naive_outcome :
  0 <= lmbda <= 1 -> dims_ok (length u) mean cov_L ->
  rank_update_mean_covariance_cholesky_lmbda_naive cholesky u lmbda mean cov_L nu2 gamma2
  = match cholesky (naive_update_cov u lmbda (start_mean (length u) mean cov_L)
                      (start_factor (length u) mean cov_L nu2) nu2 gamma2) with
    | Some L => Ok (blended_mean u lmbda (start_mean (length u) mean cov_L), L)
    | None => Raise LinAlgError
    end.
Proof.
  intros Hl Hd; unfold rank_update_mean_covariance_cholesky_lmbda_naive.
  apply lmbda_check in Hl; rewrite Hl; cbn [assert bind].
  destruct mean as [m|]; [destruct cov_L as [L|]|]; cbn [start_mean start_factor];
    try (destruct gamma2; reflexivity).
  apply dims_check in Hd as [-> ->]; cbn [assert bind].
  destruct gamma2; reflexivity.
Qed.

End UpdateOutcomes.

Lemma length_start_mean (D : nat) (mean : option vec) (cov_L : option mat) :
  dims_ok D mean cov_L -> length (start_mean D mean cov_L) = D.
Proof.
  destruct mean as [m|]; [destruct cov_L as [L|]|]; simpl;
    try (intros _; apply length_zeros).
  now intros [H _].
Qed.

Lemma length_blended_mean (u : vec) (lmbda : R) (mean : vec) :
  length mean = length u -> length (blended_mean u lmbda mean) = length u.
Proof.
  intros H; unfold blended_mean.
  rewrite length_vadd; rewrite !length_vscale; auto.
Qed.

Lemma vget_blended_mean (u : vec) (lmbda : R) (mean : vec) (i : nat) :
  length mean = length u -> (i < length u)%nat ->
  vget (blended_mean u lmbda mean) i = (1 - lmbda) * vget mean i + lmbda * vget u i.
Proof.
  intros H Hi; unfold blended_mean.
  rewrite vget_vadd, !vget_vscale; auto; rewrite length_vscale; lia.
Qed.

(** ** The mean update *)

(** C4: for every weight in [0,1], every observation [u] of matching
    dimension and every previous estimate (present, or absent and then
    started from the zero mean), the efficient strategy and, where the dense
    factorisation succeeds, the fallback strategy return the same updated
    mean, equal componentwise to [(1-lmbda)*oldMean + lmbda*u]. *)
Theorem updated_mean_rule (cholupdate : mat -> vec -> mat) (cholesky : mat -> option mat)
    (u : vec) (lmbda : R) (mean : option vec) (cov_L : option mat)
    (nu2 : R) (gamma2 : option R) (Lc : mat) :
  0 <= lmbda <= 1 ->
  dims_ok (length u) mean cov_L ->
  cholesky (naive_update_cov u lmbda (start_mean (length u) mean cov_L)
              (start_factor (length u) mean cov_L nu2) nu2 gamma2) = Some Lc ->
  exists updated_mean Le,
    rank_one_update_mean_covariance_cholesky_lmbda cholupdate u lmbda mean cov_L nu2 gamma2
      = Ok (updated_mean, Le)
    /\ rank_update_mean_covariance_cholesky_lmbda_naive cholesky u lmbda mean cov_L nu2 gamma2
      = Ok (updated_mean, Lc)
    /\ length updated_mean = length u
    /\ forall i, (i < length u)%nat ->
         vget updated_mean i
         = (1 - lmbda) * vget (start_mean (length u) mean cov_L) i + lmbda * vget u i.
Proof.
  intros Hl Hd Hc.
  exists (blended_mean u lmbda (start_mean (length u) mean cov_L)).
  eexists; split; [now apply rank_one_returns|].
  split; [rewrite naive_outcome, Hc by assumption; reflexivity|].
  pose proof (length_start_mean _ _ _ Hd) as Hlen.
  split; [now apply length_blended_mean|].
  intros i Hi; now apply vget_blended_mean.
Qed.

Lemma updated_mean_rule_witness :
  exists Lc updated_mean Le,
    rank_one_update_mean_covariance_cholesky_lmbda cholupdate_1x1
      [1] (1 / 2) None None 1 (Some (1 / 100)) = Ok (updated_mean, Le)
    /\ rank_update_mean_covariance_cholesky_lmbda_naive cholesky_1x1
      [1] (1 / 2) None None 1 (Some (1 / 100)) = Ok (updated_mean, Lc)
    /\ length updated_mean = 1%nat
    /\ forall i, (i < 1)%nat ->
         vget updated_mean i = (1 - 1 / 2) * vget (zeros 1) i + 1 / 2 * vget [1] i.
Proof.
  pose (M := naive_update_cov [1] (1 / 2) (zeros 1) (mscale 1 (eye 1)) 1 (Some (1 / 100))).
  exists [[sqrt (mget M 0 0)]].
  apply (updated_mean_rule cholupdate_1x1 cholesky_1x1 [1] (1 / 2) None None 1
                           (Some (1 / 100))).
  - lra.
  - exact I.
  - change (cholesky_1x1 M = Some [[sqrt (mget M 0 0)]]); unfold cholesky_1x1.
    rewrite (proj2 (Rltb_true 0 (mget M 0 0))); [reflexivity|].
    unfold M; cbn; lra.
Defined.

(** ** [np.exp] where binary64 rounding decides *)

Lemma inv_pow2_small (n : nat) : (2 <= n)%nat -> 0 < / 2 ^ n <= / 4.
Proof.
  intros Hn; destruct n as [|[|n]]; try lia.
  assert (H1 : 1 <= 2 ^ n) by (apply pow_R1_Rle; lra).
  assert (H4 : 4 <= 2 ^ S (S n)) by (cbn [pow]; lra).
  split; [apply Rinv_0_lt_compat; lra|].
  apply Rinv_le_contravar; lra.
Qed.

Lemma exp_gt_pow2 (n : nat) : (1 <= n)%nat -> 2 ^ n < exp (INR n).
Proof.
  assert (He : 2 < exp 1) by (pose proof (exp_ineq1 1 ltac:(lra)); lra).
  induction n as [|n IH]; [lia|]; intros _.
  destruct n as [|n]; [cbn; lra|].
  specialize (IH ltac:(lia)).
  rewrite S_INR, exp_plus; change (2 ^ S (S n)) with (2 * 2 ^ S n).
  assert (Hp : 0 < 2 ^ S n) by (apply pow_lt; lra).
  nra.
Qed.

Lemma exp64_underflow (x : R) : x <= - 1075 -> exp64 x = 0.
Proof.
  intros Hx; unfold exp64.
  rewrite (proj2 (Rltb_true _ _)); [reflexivity|].
  pose proof (exp_gt_pow2 1075 ltac:(lia)) as Hp.
  rewrite INR_IZR_INZ in Hp; change (Z.of_nat 1075) with 1075%Z in Hp.
  assert (Hx' : x <= Ropp 1075) by lra.
  assert (Hle : exp x <= exp (Ropp 1075)).
  { destruct Hx' as [Hlt|Heq]; [left; now apply exp_increasing | right; now rewrite Heq]. }
  rewrite exp_Ropp in Hle.
  assert (Hpos : 0 < 2 ^ 1075) by (apply pow_lt; lra).
  assert (Hinv : / exp 1075 < / 2 ^ 1075).
  { apply Rinv_lt_contravar; [|exact Hp].
    apply Rmult_lt_0_compat; [exact Hpos | apply exp_pos]. }
  lra.
Qed.

Lemma exp64_near_zero (x : R) : - / 2 ^ 55 <= x <= 0 -> exp64 x = 1.
Proof.
  intros [Hlo Hhi]; unfold exp64.
  pose proof (exp_ineq1_le x) as Hge.
  assert (Hle : exp x <= 1).
  { rewrite <- exp_0; destruct Hhi as [Hlt|Heq];
      [left; now apply exp_increasing | right; now rewrite Heq]. }
  destruct (inv_pow2_small 1075 ltac:(lia)) as [E0 E1].
  destruct (inv_pow2_small 54 ltac:(lia)) as [A0 A1].
  destruct (inv_pow2_small 53 ltac:(lia)) as [B0 B1].
  assert (H55 : / 2 ^ 55 = / 2 * / 2 ^ 54).
  { change (2 ^ 55) with (2 * 2 ^ 54); apply Rinv_mult. }
  rewrite H55 in Hlo.
  set (eps := / 2 ^ 1075) in *; set (d1 := / 2 ^ 54) in *; set (d2 := / 2 ^ 53) in *.
  rewrite (proj2 (Rltb_false (exp x) eps)) by lra.
  rewrite (proj2 (Rltb_true (1 - d1) (exp x))) by lra.
  rewrite (proj2 (Rltb_true (exp x) (1 + d2))) by lra.
  reflexivity.
Qed.

Lemma exp64_spec : np_exp_spec exp64.
Proof.
  destruct (inv_pow2_small 1075 ltac:(lia)) as [E0 E1].
  destruct (inv_pow2_small 54 ltac:(lia)) as [A0 A1].
  destruct (inv_pow2_small 53 ltac:(lia)) as [B0 B1].
  split; [|split].
  - intros x; unfold exp64; pose proof (exp_pos x).
    set (eps := / 2 ^ 1075) in *; set (d1 := / 2 ^ 54) in *; set (d2 := / 2 ^ 53) in *.
    destruct (Rltb (exp x) eps); [lra|].
    destruct (Rltb (1 - d1) (exp x) && Rltb (exp x) (1 + d2)); lra.
  - intros x y Hxy; unfold exp64.
    assert (Hle : exp x <= exp y).
    { destruct Hxy as [Hlt|Heq]; [left; now apply exp_increasing | right; now rewrite Heq]. }
    pose proof (exp_pos x); pose proof (exp_pos y).
    set (eps := / 2 ^ 1075) in *; set (d1 := / 2 ^ 54) in *; set (d2 := / 2 ^ 53) in *.
    repeat match goal with
           | |- context [Rltb ?a ?b] =>
               let E := fresh "E" in
               destruct (Rltb a b) eqn:E;
               [apply Rltb_true in E | apply Rltb_false in E]
           end; cbn [andb]; lra.
  - apply exp64_near_zero; split; [|lra].
    destruct (inv_pow2_small 55 ltac:(lia)); lra.
Qed.

(** ** The controller: claims *)

Lemma covariance_update_returns (cholupdate : option (mat -> vec -> mat))
    (cholesky : mat -> option mat) (u : vec) (lmbda : R)
    (mean : option vec) (cov_L : option mat) (nu2 : R) (gamma2 : option R) :
  0 <= lmbda <= 1 ->
  dims_ok (length u) mean cov_L ->
  (cholupdate = None ->
   cholesky (naive_update_cov u lmbda (start_mean (length u) mean cov_L)
               (start_factor (length u) mean cov_L nu2) nu2 gamma2) <> None) ->
  exists L, covariance_update cholupdate cholesky u lmbda mean cov_L nu2 gamma2
            = Ok (blended_mean u lmbda (start_mean (length u) mean cov_L), L).
Proof.
  intros Hl Hd Hc; unfold covariance_update; destruct cholupdate as [cu|].
  - eexists; now apply rank_one_returns.
  - rewrite naive_outcome by assumption.
    destruct (cholesky _) as [L|]; [now exists L | now elim Hc].
Qed.

(** C7: on a controller without a schedule, [update] raises nothing,
    increases the counter [t] by exactly one and leaves every other field of
    the controller, the mean, the factor and [nu2] among them, as it was. *)
Theorem update_without_schedule (cholupdate : option (mat -> vec -> mat))
    (cholesky : mat -> option mat) (np_exp np_log : R -> R) (self : AdaptiveMetropolis)
    (z_new : vec) (previous_accpept_prob : R) :
  schedule self = None ->
  exists self',
    update cholupdate cholesky np_exp np_log z_new previous_accpept_prob self = (Ok tt, self')
    /\ t self' = (t self + 1)%nat
    /\ mu self' = mu self /\ L_C self' = L_C self /\ nu2 self' = nu2 self
    /\ gamma2 self' = gamma2 self /\ D self' = D self /\ target self' = target self
    /\ schedule self' = schedule self /\ acc_star self' = acc_star self.
Proof.
  intros Hs; exists (set_t self (t self + 1)).
  split; [now apply update_unscheduled|].
  cbn; repeat split; reflexivity.
Qed.

Lemma update_without_schedule_witness :
  schedule unscheduled = None
  /\ exists self',
       update None cholesky_1x1 exp64 ln [1] (1 / 2) unscheduled = (Ok tt, self')
       /\ t self' = (t unscheduled + 1)%nat
       /\ mu self' = mu unscheduled /\ L_C self' = L_C unscheduled
       /\ nu2 self' = nu2 unscheduled
       /\ gamma2 self' = gamma2 unscheduled /\ D self' = D unscheduled
       /\ target self' = target unscheduled
       /\ schedule self' = schedule unscheduled /\ acc_star self' = acc_star unscheduled.
Proof.
  split; [reflexivity|].
  apply (update_without_schedule None cholesky_1x1 exp64 ln unscheduled [1] (1 / 2)).
  reflexivity.
Defined.

(** C8, as the code has it: when [update] raises, [InvalidParameter] and
    [DimensionMismatch] included, the mean, the factor and [nu2] are the ones
    from before the call, and the counter [t] has been increased by one: the
    counter is advanced before the covariance update validates its
    arguments. *)
Theorem failed_update_keeps_estimate (cholupdate : option (mat -> vec -> mat))
    (cholesky : mat -> option mat) (np_exp np_log : R -> R) (self self' : AdaptiveMetropolis)
    (z_new : vec) (previous_accpept_prob : R) (e : exn) :
  update cholupdate cholesky np_exp np_log z_new previous_accpept_prob self = (Raise e, self') ->
  mu self' = mu self /\ L_C self' = L_C self /\ nu2 self' = nu2 self
  /\ t self' = (t self + 1)%nat.
Proof.
  intros H; apply update_raises in H; subst self'.
  cbn; repeat split; reflexivity.
Qed.

Lemma harmonic_1 : harmonic 1 = 1 / 2.
Proof. unfold harmonic; simpl; lra. Qed.

Lemma update_scheduled_mismatch :
  update None cholesky_1x1 exp64 ln [1; 1] (1 / 2) scheduled
  = (Raise DimensionMismatch, set_t scheduled 1).
Proof.
  rewrite (update_scheduled None cholesky_1x1 exp64 ln scheduled [1; 1] (1 / 2) harmonic)
    by reflexivity.
  change (t scheduled + 1)%nat with 1%nat; rewrite harmonic_1.
  unfold covariance_update; rewrite naive_mismatch; [reflexivity | lra |].
  cbn; intros [H _]; discriminate H.
Qed.

Lemma failed_update_keeps_estimate_witness :
  update None cholesky_1x1 exp64 ln [1; 1] (1 / 2) scheduled
    = (Raise DimensionMismatch, set_t scheduled 1)
  /\ mu (set_t scheduled 1) = mu scheduled
  /\ L_C (set_t scheduled 1) = L_C scheduled
  /\ nu2 (set_t scheduled 1) = nu2 scheduled
  /\ t (set_t scheduled 1) = (t scheduled + 1)%nat.
Proof.
  split; [exact update_scheduled_mismatch|].
  exact (failed_update_keeps_estimate None cholesky_1x1 exp64 ln scheduled (set_t scheduled 1)
           [1; 1] (1 / 2) DimensionMismatch update_scheduled_mismatch).
Defined.

(** C8, as stated, fails: a call of [update] with an observation of the
    wrong length raises [DimensionMismatch] and leaves the counter changed. *)
Lemma failed_update_changes_counter :
  exists self',
    update None cholesky_1x1 exp64 ln [1; 1] (1 / 2) scheduled = (Raise DimensionMismatch, self')
    /\ t self' <> t scheduled.
Proof.
  exists (set_t scheduled 1); split; [exact update_scheduled_mismatch|].
  cbn; discriminate.
Qed.

(** What a call of [update] stores when it adapts the scale. *)
Lemma update_adapts (cholupdate : option (mat -> vec -> mat))
    (cholesky : mat -> option mat) (np_exp np_log : R -> R) (self : AdaptiveMetropolis)
    (z_new : vec) (p : R) (sch : nat -> R) (a : R) :
  schedule self = Some sch ->
  acc_star self = Some a ->
  0 <= sch (t self + 1)%nat <= 1 ->
  dims_ok (length z_new) (mu self) (L_C self) ->
  (cholupdate = None ->
   cholesky (naive_update_cov z_new (sch (t self + 1)%nat)
               (start_mean (length z_new) (mu self) (L_C self))
               (start_factor (length z_new) (mu self) (L_C self) (nu2 self))
               (nu2 self) (Some (gamma2 self))) <> None) ->
  exists self',
    update cholupdate cholesky np_exp np_log z_new p self = (Ok tt, self')
    /\ t self' = (t self + 1)%nat
    /\ nu2 self' = np_exp (np_log (nu2 self) + sch (t self + 1)%nat * (p - a)).
Proof.
  intros Hs Ha Hl Hd Hc.
  destruct (covariance_update_returns cholupdate cholesky z_new _ _ _ (nu2 self)
              (Some (gamma2 self)) Hl Hd Hc) as [L HL].
  rewrite (update_scheduled _ _ _ _ _ _ _ sch Hs), HL, Ha; cbn.
  eexists; split; [reflexivity|]; cbn; split; reflexivity.
Qed.

(** C5, as the code has it: with a schedule and a target rate configured
    and [nu2] positive, so that [np.log(nu2)] is a number, a call of
    [update] whose covariance update goes through stores
    [np.exp(np.log(nu2) + lambda_t * (previousAcceptanceProbability - acc_star))]
    as the new [nu2], where [t] is the counter after its increment.  For an
    exponential that is never negative and never decreases, the new [nu2] is
    not negative, and when the previous acceptance probability is not above
    the target it is not larger than [np.exp(np.log(nu2))], the value a
    zero step stores. *)
Theorem scale_adaptation (cholupdate : option (mat -> vec -> mat))
    (cholesky : mat -> option mat) (np_exp np_log : R -> R) (self : AdaptiveMetropolis)
    (z_new : vec) (previous_accpept_prob : R) (sch : nat -> R) (a : R) :
  np_exp_spec np_exp ->
  0 < nu2 self ->
  schedule self = Some sch ->
  acc_star self = Some a ->
  0 <= sch (t self + 1)%nat <= 1 ->
  dims_ok (length z_new) (mu self) (L_C self) ->
  (cholupdate = None ->
   cholesky (naive_update_cov z_new (sch (t self + 1)%nat)
               (start_mean (length z_new) (mu self) (L_C self))
               (start_factor (length z_new) (mu self) (L_C self) (nu2 self))
               (nu2 self) (Some (gamma2 self))) <> None) ->
  exists self',
    update cholupdate cholesky np_exp np_log z_new previous_accpept_prob self = (Ok tt, self')
    /\ t self' = (t self + 1)%nat
    /\ nu2 self' = np_exp (np_log (nu2 self) + sch (t self') * (previous_accpept_prob - a))
    /\ 0 <= nu2 self'
    /\ (previous_accpept_prob <= a -> nu2 self' <= np_exp (np_log (nu2 self))).
Proof.
  intros (Hpos & Hmono & _) _ Hs Ha Hl Hd Hc.
  destruct (update_adapts cholupdate cholesky np_exp np_log self z_new
              previous_accpept_prob sch a Hs Ha Hl Hd Hc) as (self' & Hu & Ht & Hn).
  exists self'; split; [exact Hu|]. split; [exact Ht|].
  rewrite Ht, Hn; split; [reflexivity|]. split; [apply Hpos|].
  intros Hp; apply Hmono; nra.
Qed.

Lemma dims_ok_initial_1 (s : R) : dims_ok 1 (Some (zeros 1)) (Some (mscale s (eye 1))).
Proof.
  split; [reflexivity|]. split; [reflexivity|]. intros r [<-|[]]; reflexivity.
Qed.

Lemma adapting_factorises (lmbda p : R) :
  0 <= lmbda <= 1 ->
  cholesky_1x1 (naive_update_cov [1] lmbda (zeros 1) (mscale (sqrt 1) (eye 1)) 1
                  (Some (1 / 100))) <> None.
Proof.
  intros Hl; unfold cholesky_1x1.
  match goal with |- (if Rltb 0 ?x then _ else _) <> _ =>
    rewrite (proj2 (Rltb_true 0 x)); [discriminate|] end.
  cbn; rewrite sqrt_1; nra.
Qed.

Lemma scale_adaptation_witness :
  exists self',
    update None cholesky_1x1 exp64 ln [1] (1 / 10) adapting = (Ok tt, self')
    /\ t self' = (t adapting + 1)%nat
    /\ nu2 self' = exp64 (ln (nu2 adapting) + harmonic (t self') * (1 / 10 - 234 / 1000))
    /\ 0 <= nu2 self'
    /\ (1 / 10 <= 234 / 1000 -> nu2 self' <= exp64 (ln (nu2 adapting))).
Proof.
  apply (scale_adaptation None cholesky_1x1 exp64 ln adapting [1] (1 / 10)
           harmonic (234 / 1000)).
  - exact exp64_spec.
  - change (nu2 adapting) with 1; lra.
  - reflexivity.
  - reflexivity.
  - change (t adapting + 1)%nat with 1%nat; rewrite harmonic_1; lra.
  - exact (dims_ok_initial_1 _).
  - intros _; apply (adapting_factorises _ 0).
    change (t adapting + 1)%nat with 1%nat; rewrite harmonic_1; lra.
Defined.

Lemma exp64_flushes (x : R) : exp x < / 2 ^ 1075 -> exp64 x = 0.
Proof.
  intros H; unfold exp64; now rewrite (proj2 (Rltb_true _ _)).
Qed.

Lemma exp_below_half (s : R) : s <= - (99 / 100) -> exp s < / 2.
Proof.
  intros Hs.
  assert (H2 : 2 < exp (99 / 100)).
  { replace (99 / 100) with (99 / 200 + 99 / 200) by lra.
    rewrite exp_plus; pose proof (exp_ineq1_le (99 / 200)); nra. }
  assert (Hle : exp s <= exp (Ropp (99 / 100))).
  { destruct Hs as [Hlt|Heq]; [left; now apply exp_increasing | right; now rewrite Heq]. }
  rewrite exp_Ropp in Hle.
  assert (Hinv : / exp (99 / 100) < / 2).
  { apply Rinv_lt_contravar; [|exact H2]. pose proof (exp_pos (99 / 100)); nra. }
  lra.
Qed.

(** C5, as stated, fails.  With [nu2] the smallest positive binary64
    number, weight one, acceptance probability 0 and target 0.99 the
    exponential underflows and the new [nu2] is zero, not positive; with
    [nu2 = 1], weight 1/2, target 0.25 and an acceptance probability one unit
    in the last place below the target the exponential rounds to one and
    [nu2] is unchanged, not smaller. *)
Lemma scale_adaptation_not_strict :
  (0 < nu2 tiny_scale
   /\ exists self',
        update None cholesky_1x1 exp64 ln [0] 0 tiny_scale = (Ok tt, self')
        /\ nu2 self' = 0)
  /\ (1 / 4 - / 2 ^ 55 < 1 / 4 /\ 0 < harmonic 1
      /\ exists self',
           update None cholesky_1x1 exp64 ln [1] (1 / 4 - / 2 ^ 55) adapting_quarter
           = (Ok tt, self')
           /\ nu2 self' = nu2 adapting_quarter).
Proof.
  assert (Hsub : 0 < / 2 ^ 1074) by (apply Rinv_0_lt_compat, pow_lt; lra).
  assert (H55 : 0 < / 2 ^ 55) by (apply Rinv_0_lt_compat, pow_lt; lra).
  split; [split; [exact Hsub|] | split; [lra | split; [rewrite harmonic_1; lra|]]].
  - destruct (update_adapts None cholesky_1x1 exp64 ln tiny_scale [0] 0
                constant_one (99 / 100)) as (self' & Hu & _ & Hn).
    + reflexivity.
    + reflexivity.
    + unfold constant_one; lra.
    + exact (dims_ok_initial_1 _).
    + intros _; unfold cholesky_1x1.
      match goal with |- (if Rltb 0 ?x then _ else _) <> _ =>
        rewrite (proj2 (Rltb_true 0 x)); [discriminate|] end.
      unfold constant_one; cbn -[pow]; lra.
    + exists self'; split; [exact Hu|].
      rewrite Hn; apply exp64_flushes.
      change (nu2 tiny_scale) with (/ 2 ^ 1074).
      rewrite exp_plus, exp_ln by exact Hsub.
      assert (He : exp (constant_one (t tiny_scale + 1) * (0 - 99 / 100)) < / 2).
      { apply exp_below_half; unfold constant_one; lra. }
      pose proof (exp_pos (constant_one (t tiny_scale + 1) * (0 - 99 / 100))) as Hp.
      change (2 ^ 1075) with (2 * 2 ^ 1074); rewrite Rinv_mult.
      set (e := exp _) in *; set (m := / 2 ^ 1074) in *; nra.
  - destruct (update_adapts None cholesky_1x1 exp64 ln adapting_quarter [1]
                (1 / 4 - / 2 ^ 55) harmonic (1 / 4)) as (self' & Hu & _ & Hn).
    + reflexivity.
    + reflexivity.
    + change (t adapting_quarter + 1)%nat with 1%nat; rewrite harmonic_1; lra.
    + exact (dims_ok_initial_1 _).
    + intros _; apply (adapting_factorises _ 0).
      change (t adapting_quarter + 1)%nat with 1%nat; rewrite harmonic_1; lra.
    + exists self'; split; [exact Hu|].
      rewrite Hn; change (nu2 adapting_quarter) with 1.
      change (t adapting_quarter + 1)%nat with 1%nat; rewrite ln_1, harmonic_1.
      apply exp64_near_zero; set (d := / 2 ^ 55) in *; lra.
Qed.

(** C9, as the code has it: with a factor present, [proposal] returns the
    draw [current + L z], its log-density under the target, and the
    acceptance probability
    [np.exp(min(0, candidateLogDensity - currentLogDensity))], where an
    absent current log-density is evaluated on the target; no other term
    enters it.  For an exponential that is never negative, never decreases
    and is one at zero, the probability lies in [0,1]. *)
Theorem acceptance_probability (np_exp : R -> R) (self : AdaptiveMetropolis)
    (z current : vec) (current_log_pdf : option R) (L : mat) :
  np_exp_spec np_exp ->
  L_C self = Some L ->
  schedule self <> None \/ mu self <> None ->
  let c := match current_log_pdf with
           | Some c => c
           | None => log_pdf (target self) current
           end in
  exists candidate acc candidate_log_pdf,
    proposal np_exp self z current current_log_pdf = Ok (candidate, acc, candidate_log_pdf)
    /\ candidate = sample_gaussian z current L
    /\ candidate_log_pdf = log_pdf (target self) candidate
    /\ acc = np_exp (Rmin 0 (candidate_log_pdf - c))
    /\ 0 <= acc <= 1.
Proof.
  intros (Hpos & Hmono & H0) HL Hr c; unfold proposal; rewrite HL.
  assert (Hg : (match schedule self with Some _ => false | None => true end
                && (match mu self with Some _ => false | None => true end || false))
               = false).
  { destruct (schedule self), (mu self); try reflexivity.
    destruct Hr as [Hr|Hr]; now elim Hr. }
  rewrite Hg; fold c.
  do 3 eexists; split; [reflexivity|].
  repeat split; [apply Hpos|].
  rewrite <- H0; apply Hmono, Rmin_l.
Qed.

Lemma acceptance_probability_witness :
  exists candidate acc candidate_log_pdf,
    proposal exp64 scheduled [1] [0] (Some (1 / 2)) = Ok (candidate, acc, candidate_log_pdf)
    /\ candidate = sample_gaussian [1] [0] (mscale (sqrt 1) (eye 1))
    /\ candidate_log_pdf = log_pdf (target scheduled) candidate
    /\ acc = exp64 (Rmin 0 (candidate_log_pdf - 1 / 2))
    /\ 0 <= acc <= 1.
Proof.
  apply (acceptance_probability exp64 scheduled [1] [0] (Some (1 / 2))
           (mscale (sqrt 1) (eye 1))).
  - exact exp64_spec.
  - reflexivity.
  - left; discriminate.
Defined.

(** C9, as stated, fails: on a standard normal target, from the current
    point 0 with log-density 0 and the draw 50 through the unit factor, the
    candidate's log-density is -1250, the exponential underflows and the
    acceptance probability is zero, outside (0,1]. *)
Lemma acceptance_probability_underflows :
  exists candidate candidate_log_pdf,
    proposal exp64 scheduled_normal [50] [0] (Some 0)
    = Ok (candidate, 0, candidate_log_pdf)
    /\ candidate_log_pdf = - 1250.
Proof.
  assert (Hlp : log_pdf (target scheduled_normal)
                  (sample_gaussian [50] [0] (mscale (sqrt 1) (eye 1))) = - 1250).
  { cbn; rewrite sqrt_1; lra. }
  exists (sample_gaussian [50] [0] (mscale (sqrt 1) (eye 1))), (- 1250).
  split; [|reflexivity].
  set (candidate := sample_gaussian [50] [0] (mscale (sqrt 1) (eye 1))) in *.
  change (Ok (candidate,
              exp64 (Rmin 0 (log_pdf (target scheduled_normal) candidate - 0)),
              log_pdf (target scheduled_normal) candidate)
          = Ok (candidate, 0, - 1250)).
  rewrite Hlp; do 2 f_equal; f_equal.
  apply exp64_underflow.
  eapply Rle_trans; [apply Rmin_r | lra].
Qed.

(** C6: in every state a controller can reach, [proposal] raises
    [NotReady] exactly when no schedule is configured and the mean or the
    factor is absent; in every other reachable state a factor [L] is
    present and [proposal] returns the candidate [current + L z], the
    acceptance probability
    [np.exp(min(0, candidateLogDensity - currentLogDensity))] and the
    candidate's log-density under the target, the current log-density being
    the one given or, when absent, the target's at [current]. *)
Theorem proposal_not_ready (cholupdate : option (mat -> vec -> mat))
    (cholesky : mat -> option mat) (np_exp np_log : R -> R) (self : AdaptiveMetropolis)
    (z current : vec) (current_log_pdf : option R) :
  reachable cholupdate cholesky np_exp np_log self ->
  (proposal np_exp self z current current_log_pdf = Raise NotReady
   <-> schedule self = None /\ (mu self = None \/ L_C self = None))
  /\ (~ (schedule self = None /\ (mu self = None \/ L_C self = None)) ->
      exists L candidate,
        L_C self = Some L
        /\ candidate = sample_gaussian z current L
        /\ proposal np_exp self z current current_log_pdf
           = Ok (candidate,
                 np_exp (Rmin 0 (log_pdf (target self) candidate
                                 - match current_log_pdf with
                                   | Some c => c
                                   | None => log_pdf (target self) current
                                   end)),
                 log_pdf (target self) candidate)).
Proof.
  intros Hr; apply reachable_estimate_present in Hr; unfold estimate_present in Hr.
  unfold proposal.
  destruct (schedule self) as [sch|] eqn:Hs; cbn [andb].
  - destruct Hr as [_ HL]; [discriminate|].
    destruct (L_C self) as [L|]; [|now elim HL].
    split; [split; [discriminate 1 | intros [H _]; discriminate H]|].
    intros _; do 2 eexists; repeat split; reflexivity.
  - clear Hr; destruct (mu self) as [m|], (L_C self) as [L|]; cbn [orb].
    + split; [split; [discriminate 1 | intros [_ [H|H]]; discriminate H]|].
      intros _; do 2 eexists; repeat split; reflexivity.
    + split; [split; auto|]. intros H; elim H; auto.
    + split; [split; auto|]. intros H; elim H; auto.
    + split; [split; auto|]. intros H; elim H; auto.
Qed.

Lemma unscheduled_reachable (cholupdate : option (mat -> vec -> mat))
    (cholesky : mat -> option mat) (np_exp np_log : R -> R) :
  reachable cholupdate cholesky np_exp np_log unscheduled.
Proof.
  apply (reach_init _ _ _ _ flat_target 1%nat 1 (1 / 100) None None); reflexivity.
Qed.

Lemma proposal_not_ready_witness :
  (proposal exp64 unscheduled [1] [0] None = Raise NotReady
   <-> schedule unscheduled = None /\ (mu unscheduled = None \/ L_C unscheduled = None))
  /\ (~ (schedule unscheduled = None
         /\ (mu unscheduled = None \/ L_C unscheduled = None)) ->
      exists L candidate,
        L_C unscheduled = Some L
        /\ candidate = sample_gaussian [1] [0] L
        /\ proposal exp64 unscheduled [1] [0] None
           = Ok (candidate,
                 exp64 (Rmin 0 (log_pdf (target unscheduled) candidate
                                - log_pdf (target unscheduled) [0])),
                 log_pdf (target unscheduled) candidate)).
Proof.
  apply (proposal_not_ready None cholesky_1x1 exp64 ln unscheduled [1] [0] None).
  apply unscheduled_reachable.
Defined.

(** ** Sorting and closeness *)

Lemma insert_sorted_perm (x : R) (l : list R) :
  Permutation (insert_sorted x l) (x :: l).
Proof.
  induction l as [|y l IH]; simpl; auto.
  destruct (Rleb x y); auto.
  rewrite IH; apply perm_swap.
Qed.

Lemma sort_perm (l : list R) : Permutation (sort l) l.
Proof.
  induction l as [|x l IH]; simpl; auto.
  rewrite insert_sorted_perm; now constructor.
Qed.

Lemma insert_sorted_sorted (x : R) (l : list R) :
  StronglySorted Rle l -> StronglySorted Rle (insert_sorted x l).
Proof.
  induction 1 as [|y l Hs IH Hall]; simpl.
  - constructor; constructor.
  - destruct (Rleb x y) eqn:E.
    + apply Rleb_true in E; constructor; [now constructor|].
      constructor; auto.
      eapply Forall_impl; [|exact Hall]; intros z Hz; simpl in Hz; lra.
    + apply Rleb_false in E; constructor; auto.
      rewrite insert_sorted_perm; constructor; auto; lra.
Qed.

Lemma sort_sorted (l : list R) : StronglySorted Rle (sort l).
Proof.
  induction l as [|x l IH]; simpl; [constructor|].
  now apply insert_sorted_sorted.
Qed.

Lemma sorted_perm_unique (a b : list R) :
  StronglySorted Rle a -> StronglySorted Rle b -> Permutation a b -> a = b.
Proof.
  intros Ha; revert b; induction Ha as [|x a Ha IH Hx]; intros b Hb Hp.
  - apply Permutation_nil in Hp; now subst.
  - destruct Hb as [|y b Hb Hy].
    + apply Permutation_sym, Permutation_nil in Hp; discriminate.
    + assert (Hxy : x = y).
      { assert (H1 : In y (x :: a)) by (eapply Permutation_in; [symmetry; eauto | now left]).
        assert (H2 : In x (y :: b)) by (eapply Permutation_in; [eauto | now left]).
        rewrite Forall_forall in Hx, Hy.
        destruct H1 as [H1|H1]; [auto|]. destruct H2 as [H2|H2]; [auto|].
        apply Hx in H1; apply Hy in H2; lra. }
      subst y; f_equal; apply IH; auto.
      eapply Permutation_cons_inv; eauto.
Qed.

Lemma sorted_snoc {A : Type} (P : A -> A -> Prop) (l : list A) (x : A) :
  StronglySorted P l -> Forall (fun y => P y x) l -> StronglySorted P (l ++ [x]).
Proof.
  induction 1 as [|y l Hs IH Hy]; intros Hall; simpl.
  - constructor; constructor.
  - inversion Hall; subst; constructor; auto.
    apply Forall_app; split; auto.
Qed.

Lemma sorted_rev {A : Type} (P : A -> A -> Prop) (l : list A) :
  StronglySorted P l -> StronglySorted (fun a b => P b a) (rev l).
Proof.
  induction 1 as [|x l Hs IH Hx]; simpl; [constructor|].
  apply sorted_snoc; auto.
  apply Forall_rev; auto.
Qed.


(** A non-increasing sequence is its own descending sort. *)
Lemma rev_sort_nonincreasing (l : list R) :
  StronglySorted Rge l -> rev (sort l) = l.
Proof.
  intros Hs.
  assert (H : sort l = rev l).
  { apply sorted_perm_unique.
    - apply sort_sorted.
    - apply sorted_rev in Hs; eapply StronglySorted_ind with (P := StronglySorted Rle);
        [constructor | | exact Hs].
      intros a r _ IH Ha; constructor; auto.
      eapply Forall_impl; [|exact Ha]; intros b Hb; simpl in Hb; lra.
    - rewrite sort_perm; apply Permutation_rev. }
  rewrite H; apply rev_involutive.
Qed.


Lemma isclose_true (a b : R) : isclose a b = true <-> Rabs (a - b) <= tol b.
Proof. unfold isclose, tol; apply Rleb_true. Qed.

Lemma tol_pos (b : R) : 0 < tol b.
Proof.
  unfold tol, atol, rtol; pose proof (Rabs_pos b); lra.
Qed.

Lemma allclose_refl (l : list R) : allclose l l = true.
Proof.
  unfold allclose; apply forallb_forall; intros [x y] Hin.
  assert (x = y).
  { clear -Hin; induction l as [|a l IH]; simpl in Hin; [contradiction|].
    destruct Hin as [H|H]; [now inversion H | auto]. }
  subst y; apply isclose_true; simpl.
  replace (x - x) with 0 by ring; rewrite Rabs_R0.
  left; apply tol_pos.
Qed.



Lemma all_nonneg_true (l : list R) :
  all_nonneg l = true <-> forall x, In x l -> 0 <= x.
Proof.
  unfold all_nonneg; rewrite forallb_forall; split; intros H x Hx;
    now apply Rleb_true, H.
Qed.


Lemma sorted_map_seq (P : R -> R -> Prop) (f : nat -> R) (a n : nat) :
  (forall i j, (a <= i)%nat -> (i < j)%nat -> (j < a + n)%nat -> P (f i) (f j)) ->
  StronglySorted P (map f (seq a n)).
Proof.
  revert a; induction n as [|n IH]; intros a H; simpl; [constructor|].
  constructor.
  - apply IH; intros i j Hi Hij Hj; apply H; lia.
  - apply Forall_forall; intros x Hx; apply in_map_iff in Hx as (j & <- & Hj).
    apply in_seq in Hj; apply H; lia.
Qed.

(** ** Construction *)

Lemma init_outcome (target : Target) (D : nat) (nu2 gamma2 : R)
    (schedule : option (nat -> R)) (acc_star : option R) :
  __init__ target D nu2 gamma2 schedule acc_star =
  if match acc_star with None => true | Some a => Rltb 0 a && Rltb a 1 end
  then match schedule with
       | Some f =>
           if all_nonneg (map f (seq 0 probes))
           then if allclose (rev (sort (map f (seq 0 probes)))) (map f (seq 0 probes))
                then Ok (_initialise (mkAM target D nu2 gamma2 schedule acc_star 0 None None))
                else Raise InvalidParameter
           else Raise InvalidParameter
       | None => Ok (_initialise (mkAM target D nu2 gamma2 schedule acc_star 0 None None))
       end
  else Raise InvalidParameter.
Proof.
  unfold __init__, assert, bind.
  destruct (match acc_star with None => true | Some a => Rltb 0 a && Rltb a 1 end);
    [|reflexivity].
  destruct schedule as [f|]; [|reflexivity].
  destruct (all_nonneg _); [|reflexivity].
  destruct (allclose _ _); reflexivity.
Qed.

Lemma acc_star_check (a : R) : Rltb 0 a && Rltb a 1 = true <-> 0 < a < 1.
Proof. rewrite andb_true_iff, !Rltb_true; tauto. Qed.



Lemma harmonic_nonneg (k : nat) : 0 <= harmonic k.
Proof.
  unfold harmonic; pose proof (pos_INR k).
  apply Rlt_le, Rdiv_lt_0_compat; lra.
Qed.

Lemma harmonic_nonincreasing (i j : nat) : (i < j)%nat -> harmonic j <= harmonic i.
Proof.
  intros Hij; unfold harmonic; pose proof (pos_INR i); apply lt_INR in Hij.
  unfold Rdiv; rewrite !Rmult_1_l.
  apply Rinv_le_contravar; lra.
Qed.



(** ** Matrices *)

Lemma sum_n_ext (n : nat) (f g : nat -> R) :
  (forall k, (k < n)%nat -> f k = g k) -> sum_n n f = sum_n n g.
Proof.
  induction n as [|n IH]; intros H; simpl; auto.
  rewrite IH, H; auto.
Qed.

Lemma sum_n_scale (n : nat) (c : R) (f : nat -> R) :
  sum_n n (fun k => c * f k) = c * sum_n n f.
Proof.
  induction n as [|n IH]; simpl; [ring|]. rewrite IH; ring.
Qed.

Lemma nth_mscale (c : R) (M : mat) (i : nat) :
  nth i (mscale c M) [] = vscale c (nth i M []).
Proof.
  unfold mscale; change (@nil R) with (vscale c []) at 1; apply map_nth.
Qed.

Lemma mget_mscale (c : R) (M : mat) (i j : nat) :
  mget (mscale c M) i j = c * mget M i j.
Proof.
  unfold mget; rewrite nth_mscale; apply vget_vscale.
Qed.

Lemma shape_mscale (n m : nat) (c : R) (M : mat) :
  shape n m M -> shape n m (mscale c M).
Proof.
  intros [Hn Hr]; split; [unfold mscale; now rewrite length_map|].
  intros r Hin; unfold mscale in Hin; apply in_map_iff in Hin as (r' & <- & Hin).
  rewrite length_vscale; auto.
Qed.

Lemma shape_madd (n m : nat) (A B : mat) :
  shape n m A -> shape n m B -> shape n m (madd A B).
Proof.
  intros HA HB; split.
  - unfold madd; rewrite length_zip_with; destruct HA, HB; lia.
  - intros r Hin; apply (In_nth _ _ []) in Hin as (i & Hi & <-).
    unfold madd in *; rewrite length_zip_with in Hi.
    assert (i < n)%nat by (destruct HA; lia).
    rewrite (nth_zip_with vadd A B i [] []) by lia.
    rewrite length_vadd; rewrite (shape_row n m A); auto.
    now rewrite (shape_row n m B).
Qed.

Lemma mget_madd (n m : nat) (A B : mat) (i j : nat) :
  shape n m A -> shape n m B -> (i < n)%nat -> (j < m)%nat ->
  mget (madd A B) i j = mget A i j + mget B i j.
Proof.
  intros HA HB Hi Hj; unfold mget, madd.
  rewrite (nth_zip_with vadd A B i [] []) by (destruct HA, HB; lia).
  apply vget_vadd; [rewrite (shape_row n m A) | rewrite (shape_row n m B)]; auto.
Qed.

Lemma shape_eye (n : nat) : shape n n (eye n).
Proof. apply shape_mk_mat. Qed.

Lemma mget_eye (n i j : nat) :
  (i < n)%nat -> (j < n)%nat -> mget (eye n) i j = if (i =? j)%nat then 1 else 0.
Proof. intros; unfold eye; now rewrite mget_mk_mat. Qed.

Lemma shape_transpose (M : mat) : shape (ncols M) (nrows M) (transpose M).
Proof. apply shape_mk_mat. Qed.

Lemma mget_transpose (n m : nat) (M : mat) (i j : nat) :
  shape (S n) m M -> (i < m)%nat -> (j < S n)%nat ->
  mget (transpose M) i j = mget M j i.
Proof.
  intros HM Hi Hj; unfold transpose.
  rewrite (shape_ncols n m M HM); destruct HM as [Hn _]; unfold nrows; rewrite Hn.
  now rewrite mget_mk_mat.
Qed.

Lemma shape_dot (A B : mat) : shape (nrows A) (ncols B) (dot A B).
Proof. apply shape_mk_mat. Qed.

Lemma shape_outer (u v : vec) : shape (length u) (length v) (outer u v).
Proof.
  split; [unfold outer; now rewrite length_map|].
  intros r Hin; unfold outer in Hin; apply in_map_iff in Hin as (a & <- & _).
  now rewrite length_map.
Qed.

Lemma mget_outer (u v : vec) (i j : nat) :
  (i < length u)%nat -> mget (outer u v) i j = vget u i * vget v j.
Proof.
  intros Hi; unfold mget, outer.
  rewrite (nth_indep _ [] (map (fun b => vget u 0 * b) v)) by (now rewrite length_map).
  unfold vget at 1.
  rewrite (nth_indep (map _ u) _ (map (fun b => 0 * b) v)) by (now rewrite length_map).
  rewrite (map_nth (fun a => map (fun b => a * b) v) u 0 i).
  fold (vget u i); rewrite <- (Rmult_0_r (vget u i)) at 1.
  apply (map_nth (fun b => vget u i * b)).
Qed.

Lemma shape_cov (X : mat) : shape (nrows X) (nrows X) (cov X).
Proof. apply shape_mk_mat. Qed.

Lemma cov_symmetric (X : mat) : symmetric (nrows X) (cov X).
Proof.
  intros i j Hi Hj; unfold cov; rewrite !mget_mk_mat by auto.
  f_equal; apply sum_n_ext; intros k _; ring.
Qed.

Lemma eye_symmetric (n : nat) : symmetric n (eye n).
Proof.
  intros i j Hi Hj; rewrite !mget_eye by auto; now rewrite Nat.eqb_sym.
Qed.

Lemma mscale_symmetric (n : nat) (c : R) (M : mat) :
  symmetric n M -> symmetric n (mscale c M).
Proof.
  intros H i j Hi Hj; rewrite !mget_mscale; f_equal; now apply H.
Qed.

Lemma madd_symmetric (n : nat) (A B : mat) :
  shape n n A -> shape n n B -> symmetric n A -> symmetric n B ->
  symmetric n (madd A B).
Proof.
  intros HA HB SA SB i j Hi Hj.
  rewrite !(mget_madd n n) by auto; f_equal; auto.
Qed.

(** ** Collaborators on one by one matrices *)

Lemma shape_1x1 (M : mat) : shape 1 1 M -> M = [[mget M 0 0]].
Proof.
  intros [Hn Hr]; destruct M as [|r [|? ?]]; try discriminate.
  assert (Hl : length r = 1%nat) by (apply Hr; now left).
  destruct r as [|x [|? ?]]; try discriminate; reflexivity.
Qed.

Lemma cholesky_1x1_spec : cholesky_spec 1 cholesky_1x1.
Proof.
  intros M L HM _; unfold cholesky_1x1.
  destruct (Rltb 0 (mget M 0 0)) eqn:E; [|discriminate].
  apply Rltb_true in E; intros H; inversion H; subst L; clear H.
  split.
  - split; [split; [reflexivity|] | split].
    + intros r [<-|[]]; reflexivity.
    + intros i j Hij Hj; lia.
    + intros i Hi; replace i with 0%nat by lia; cbn; now apply sqrt_lt_R0.
  - transitivity [[mget M 0 0]]; [|symmetry; now apply shape_1x1].
    cbn; rewrite sqrt_sqrt by lra; do 2 f_equal; ring.
Qed.

Lemma cholupdate_1x1_spec : cholupdate_spec 1 cholupdate_1x1.
Proof.
  intros R x (HR & _ & Hpos) Hx; specialize (Hpos 0%nat ltac:(lia)).
  assert (Hs : 0 < mget R 0 0 * mget R 0 0 + vget x 0 * vget x 0) by nra.
  split.
  - split; [split; [reflexivity|] | split].
    + intros r [<-|[]]; reflexivity.
    + intros i j Hij Hj; lia.
    + intros i Hi; replace i with 0%nat by lia; cbn; now apply sqrt_lt_R0.
  - rewrite (shape_1x1 R HR).
    destruct x as [|x0 [|? ?]]; try discriminate; cbn.
    rewrite sqrt_sqrt by (cbn in Hs; lra); do 2 f_equal; ring.
Qed.

(** ** Batch initialisation *)

Lemma set_batch_covariance_outcome (cholesky : mat -> option mat)
    (self : AdaptiveMetropolis) (Z : mat) :
  set_batch_covariance cholesky Z self =
  match cholesky (batch_cov self Z) with
  | Some L => (Ok tt, set_L_C (set_mu self (Some (mean_axis0 Z))) (Some L))
  | None => (Raise LinAlgError, set_mu self (Some (mean_axis0 Z)))
  end.
Proof.
  unfold_method; unfold batch_cov; cbn.
  destruct (cholesky _); reflexivity.
Qed.

(** The call never raises [DimensionMismatch], whatever the batch. *)
Lemma set_batch_covariance_no_mismatch (cholesky : mat -> option mat)
    (self : AdaptiveMetropolis) (Z : mat) :
  fst (set_batch_covariance cholesky Z self) <> Raise DimensionMismatch.
Proof.
  rewrite set_batch_covariance_outcome; destruct (cholesky _); discriminate.
Qed.

Lemma batch_cov_shape (self : AdaptiveMetropolis) (Z : mat) (N d : nat) :
  shape (S N) d Z ->
  shape d d (batch_cov self Z) /\ symmetric d (batch_cov self Z).
Proof.
  intros HZ; unfold batch_cov; rewrite (shape_ncols N d Z HZ).
  assert (Hc : shape d d (cov (transpose Z)) /\ symmetric d (cov (transpose Z))).
  { pose proof (shape_cov (transpose Z)) as H1.
    pose proof (cov_symmetric (transpose Z)) as H2.
    assert (E : nrows (transpose Z) = d).
    { unfold nrows, transpose; rewrite length_mk_mat; apply (shape_ncols N d Z HZ). }
    rewrite E in H1, H2; auto. }
  destruct Hc as [H1 H2]; split.
  - apply shape_madd; apply shape_mscale; auto; apply shape_eye.
  - apply madd_symmetric; try apply shape_mscale; try apply mscale_symmetric; auto;
      try apply shape_eye; apply eye_symmetric.
Qed.

(** C10: [set_batch_covariance] performs no validation against the
    configured [D].  Whatever the batch, the call does not raise
    [DimensionMismatch] and leaves [D] as it was; and on a batch of at least
    two samples of any dimension [d] on which the dense factorisation
    succeeds, it raises nothing and replaces the mean by the
    [d]-dimensional sample mean and the factor by the [d] by [d] factor of
    [nu2*sampleCovariance + gamma2*I]. *)
Theorem batch_covariance_any_dimension (cholesky : mat -> option mat)
    (self : AdaptiveMetropolis) (Z : mat) :
  fst (set_batch_covariance cholesky Z self) <> Raise DimensionMismatch
  /\ D (snd (set_batch_covariance cholesky Z self)) = D self
  /\ forall (N d : nat) (L : mat),
       shape N d Z ->
       (2 <= N)%nat ->
       cholesky_spec d cholesky ->
       cholesky (batch_cov self Z) = Some L ->
       exists self',
         set_batch_covariance cholesky Z self = (Ok tt, self')
         /\ mu self' = Some (mean_axis0 Z) /\ length (mean_axis0 Z) = d
         /\ L_C self' = Some L /\ shape d d L
         /\ dot L (transpose L) = batch_cov self Z
         /\ D self' = D self /\ t self' = t self /\ nu2 self' = nu2 self
         /\ gamma2 self' = gamma2 self.
Proof.
  split; [apply set_batch_covariance_no_mismatch|].
  split; [rewrite set_batch_covariance_outcome; destruct (cholesky _); reflexivity|].
  intros N d L HZ HN Hspec Hc.
  destruct N as [|N]; [lia|].
  destruct (batch_cov_shape self Z N d HZ) as [Hsh Hsym].
  destruct (Hspec _ _ Hsh Hsym Hc) as [(HL & _) Hdot].
  eexists; split; [rewrite set_batch_covariance_outcome, Hc; reflexivity|].
  cbn [mu L_C D t nu2 gamma2 set_L_C set_mu].
  split; [reflexivity|]. split.
  { unfold mean_axis0; rewrite length_mk_vec; apply (shape_ncols N d Z HZ). }
  split; [reflexivity|]. split; [exact HL|]. split; [exact Hdot|].
  repeat split; reflexivity.
Qed.

Lemma batch_covariance_any_dimension_witness :
  D unscheduled_3 = 3%nat
  /\ exists L self',
       set_batch_covariance cholesky_1x1 batch_1d unscheduled_3 = (Ok tt, self')
       /\ mu self' = Some (mean_axis0 batch_1d) /\ length (mean_axis0 batch_1d) = 1%nat
       /\ L_C self' = Some L /\ shape 1 1 L
       /\ dot L (transpose L) = batch_cov unscheduled_3 batch_1d
       /\ D self' = D unscheduled_3 /\ t self' = t unscheduled_3
       /\ nu2 self' = nu2 unscheduled_3 /\ gamma2 self' = gamma2 unscheduled_3.
Proof.
  split; [reflexivity|].
  exists [[sqrt (mget (batch_cov unscheduled_3 batch_1d) 0 0)]].
  apply (batch_covariance_any_dimension cholesky_1x1 unscheduled_3 batch_1d) with (N := 2%nat).
  - split; [reflexivity|]. intros r [<-|[<-|[]]]; reflexivity.
  - lia.
  - exact cholesky_1x1_spec.
  - unfold cholesky_1x1.
    rewrite (proj2 (Rltb_true 0 _)); [reflexivity|].
    cbn; lra.
Defined.

(** ** The first-term branch *)

Lemma first_term_dims (D : nat) (nu2 : R) :
  dims_ok D (Some (zeros D)) (Some (mscale nu2 (eye D))).
Proof.
  split; [apply length_zeros | apply shape_mscale, shape_eye].
Qed.

(** With the mean or the factor absent, both strategies behave as if they
    had been handed the zero mean and the factor [nu2 * I]. *)
Lemma first_term_start (cholupdate : mat -> vec -> mat) (cholesky : mat -> option mat)
    (u : vec) (lmbda : R) (mean : option vec) (cov_L : option mat)
    (nu2 : R) (gamma2 : option R) :
  mean = None \/ cov_L = None ->
  rank_one_update_mean_covariance_cholesky_lmbda cholupdate u lmbda mean cov_L nu2 gamma2
  = rank_one_update_mean_covariance_cholesky_lmbda cholupdate u lmbda
      (Some (zeros (length u))) (Some (mscale nu2 (eye (length u)))) nu2 gamma2
  /\ rank_update_mean_covariance_cholesky_lmbda_naive cholesky u lmbda mean cov_L nu2 gamma2
     = rank_update_mean_covariance_cholesky_lmbda_naive cholesky u lmbda
         (Some (zeros (length u))) (Some (mscale nu2 (eye (length u)))) nu2 gamma2.
Proof.
  intros Habs.
  assert (Hd : dims_ok (length u) mean cov_L).
  { destruct Habs as [-> | ->]; [exact I|]. destruct mean; exact I. }
  assert (Hm : start_mean (length u) mean cov_L = zeros (length u)).
  { destruct Habs as [-> | ->]; [reflexivity|]. destruct mean; reflexivity. }
  assert (Hf : start_factor (length u) mean cov_L nu2 = mscale nu2 (eye (length u))).
  { destruct Habs as [-> | ->]; [reflexivity|]. destruct mean; reflexivity. }
  destruct (Rle_dec 0 lmbda) as [H0|H0]; [destruct (Rle_dec lmbda 1) as [H1|H1]|].
  - pose proof (first_term_dims (length u) nu2) as Hd'.
    rewrite !rank_one_returns, !naive_outcome by auto.
    rewrite Hm, Hf; split; reflexivity.
  - rewrite !rank_one_invalid, !naive_invalid by lra; split; reflexivity.
  - rewrite !rank_one_invalid, !naive_invalid by lra; split; reflexivity.
Qed.

Lemma sqrt_4 : sqrt 4 = 2.
Proof. apply sqrt_lem_1; lra. Qed.

(** C2, at [nu2 = 4] and a one-dimensional observation: with no previous
    estimate both strategies start from the zero mean and the factor
    [nu2 * I = 4 * I], the same in both; the factor is not
    [sqrt(nu2) * I = 2 * I], the one [_initialise] stores. *)
Theorem first_term_factor_is_nu2 (cholupdate : mat -> vec -> mat)
    (cholesky : mat -> option mat) (lmbda : R) (gamma2 : option R) :
  rank_one_update_mean_covariance_cholesky_lmbda cholupdate [0] lmbda None None 4 gamma2
  = rank_one_update_mean_covariance_cholesky_lmbda cholupdate [0] lmbda
      (Some (zeros 1)) (Some (mscale 4 (eye 1))) 4 gamma2
  /\ rank_update_mean_covariance_cholesky_lmbda_naive cholesky [0] lmbda None None 4 gamma2
     = rank_update_mean_covariance_cholesky_lmbda_naive cholesky [0] lmbda
         (Some (zeros 1)) (Some (mscale 4 (eye 1))) 4 gamma2
  /\ mget (mscale 4 (eye 1)) 0 0 = 4
  /\ mget (mscale (sqrt 4) (eye 1)) 0 0 = 2
  /\ L_C (_initialise (mkAM flat_target 1 4 0 (Some harmonic) None 0 None None))
     = Some (mscale (sqrt 4) (eye 1)).
Proof.
  destruct (first_term_start cholupdate cholesky [0] lmbda None None 4 gamma2) as [H1 H2];
    [now left|].
  split; [exact H1|]. split; [exact H2|].
  split; [cbn; lra|]. split; [cbn; rewrite sqrt_4; lra | reflexivity].
Qed.

(** ** Square matrices *)

Lemma ncols_square (n : nat) (M : mat) : shape n n M -> ncols M = n.
Proof.
  destruct n as [|n]; [|apply shape_ncols].
  intros [Hn _]; destruct M; [reflexivity | discriminate].
Qed.

Lemma nrows_square (n : nat) (M : mat) : shape n n M -> nrows M = n.
Proof. now intros [Hn _]. Qed.

Lemma shape_transpose_sq (n : nat) (M : mat) : shape n n M -> shape n n (transpose M).
Proof.
  intros HM; pose proof (shape_transpose M) as H.
  now rewrite (ncols_square n M HM), (nrows_square n M HM) in H.
Qed.

Lemma mget_transpose_sq (n : nat) (M : mat) (i j : nat) :
  shape n n M -> (i < n)%nat -> (j < n)%nat -> mget (transpose M) i j = mget M j i.
Proof.
  intros HM Hi Hj; unfold transpose.
  rewrite (ncols_square n M HM), (nrows_square n M HM); now rewrite mget_mk_mat.
Qed.

Lemma shape_dot_sq (n : nat) (A B : mat) :
  shape n n A -> shape n n B -> shape n n (dot A B).
Proof.
  intros HA HB; pose proof (shape_dot A B) as H.
  now rewrite (nrows_square n A HA), (ncols_square n B HB) in H.
Qed.

Lemma mget_dot_sq (n : nat) (A B : mat) (i j : nat) :
  shape n n A -> shape n n B -> (i < n)%nat -> (j < n)%nat ->
  mget (dot A B) i j = sum_n n (fun k => mget A i k * mget B k j).
Proof.
  intros HA HB Hi Hj; unfold dot.
  rewrite (nrows_square n A HA), (ncols_square n B HB), (ncols_square n A HA).
  now rewrite mget_mk_mat.
Qed.

Lemma transpose_involutive (n : nat) (M : mat) :
  shape n n M -> transpose (transpose M) = M.
Proof.
  intros HM; apply (mat_ext n n); auto.
  - now apply shape_transpose_sq, shape_transpose_sq.
  - intros i j Hi Hj.
    rewrite (mget_transpose_sq n), (mget_transpose_sq n); auto.
    now apply shape_transpose_sq.
Qed.

(** The entries of [R^T R] and of [L L^T]. *)
Lemma mget_gram (n : nat) (R : mat) (i j : nat) :
  shape n n R -> (i < n)%nat -> (j < n)%nat ->
  mget (dot (transpose R) R) i j = sum_n n (fun k => mget R k i * mget R k j).
Proof.
  intros HR Hi Hj; rewrite (mget_dot_sq n); auto; [|now apply shape_transpose_sq].
  apply sum_n_ext; intros k Hk; now rewrite (mget_transpose_sq n).
Qed.

Lemma mget_dot_transpose (n : nat) (L : mat) (i j : nat) :
  shape n n L -> (i < n)%nat -> (j < n)%nat ->
  mget (dot L (transpose L)) i j = sum_n n (fun k => mget L i k * mget L j k).
Proof.
  intros HL Hi Hj; rewrite (mget_dot_sq n); auto; [|now apply shape_transpose_sq].
  apply sum_n_ext; intros k Hk; now rewrite (mget_transpose_sq n).
Qed.

Lemma dot_transpose_symmetric (n : nat) (L : mat) :
  shape n n L -> symmetric n (dot L (transpose L)).
Proof.
  intros HL i j Hi Hj; rewrite !(mget_dot_transpose n) by auto.
  apply sum_n_ext; intros k _; ring.
Qed.

Lemma outer_symmetric (v : vec) : symmetric (length v) (outer v v).
Proof.
  intros i j Hi Hj; rewrite !mget_outer by auto; ring.
Qed.

Lemma length_e_d (n d : nat) (c : R) : length (e_d n d c) = n.
Proof. apply length_mk_vec. Qed.

Lemma vget_e_d (n d : nat) (c : R) (i : nat) :
  (i < n)%nat -> vget (e_d n d c) i = if (i =? d)%nat then c else 0.
Proof. intros; unfold e_d; now rewrite vget_mk_vec. Qed.

(** The sum over the basis vectors [d = a, ..., a+m-1] of the [(i,j)]
    entries of [e_d e_d^T]. *)
Lemma basis_outer_sum (i j a m : nat) (x : R) :
  let total :=
    fold_right (fun d acc => (if (i =? d)%nat then x else 0)
                             * (if (j =? d)%nat then x else 0) + acc) 0 (seq a m) in
  (i <> j \/ (i < a)%nat \/ (a + m <= i)%nat -> total = 0)
  /\ (i = j -> (a <= i)%nat -> (i < a + m)%nat -> total = x * x).
Proof.
  revert a; induction m as [|m IH]; intros a; simpl.
  - split; [reflexivity | lia].
  - destruct (IH (S a)) as [IH0 IH1]; simpl in IH0, IH1; split.
    + intros H; rewrite IH0 by lia.
      destruct (Nat.eqb_spec i a), (Nat.eqb_spec j a); try ring; lia.
    + intros <- Ha Hm; destruct (Nat.eqb_spec i a) as [->|Hne].
      * rewrite IH0 by lia; ring.
      * rewrite IH1 by lia; ring.
Qed.

(** ** The efficient strategy realises the rule *)

Lemma scaled_product (c a b : R) :
  0 <= c -> (sqrt c * a) * (sqrt c * b) = c * (a * b).
Proof.
  intros Hc; replace (c * (a * b)) with ((sqrt c * sqrt c) * (a * b))
    by (now rewrite sqrt_sqrt).
  ring.
Qed.

Lemma scaled_product2 (c d a b : R) :
  0 <= c -> 0 <= d ->
  (sqrt c * sqrt d * a) * (sqrt c * sqrt d * b) = c * (d * (a * b)).
Proof.
  intros Hc Hd.
  replace (c * (d * (a * b))) with ((sqrt c * sqrt c) * ((sqrt d * sqrt d) * (a * b)))
    by (now rewrite !sqrt_sqrt).
  ring.
Qed.

Lemma upper_of_scaled_transpose (n : nat) (c : R) (L : mat) :
  lower_factor n L -> 0 < c -> upper_factor n (mscale c (transpose L)).
Proof.
  intros (HL & Hz & Hp) Hc; split; [|split].
  - now apply shape_mscale, shape_transpose_sq.
  - intros i j Hji Hi; rewrite mget_mscale, (mget_transpose_sq n) by (auto; lia).
    rewrite Hz by auto; ring.
  - intros i Hi; rewrite mget_mscale, (mget_transpose_sq n) by auto.
    apply Rmult_lt_0_compat; auto.
Qed.

Section RankOneUpdates.

Variable cholupdate : mat -> vec -> mat.
Variable n : nat.
Hypothesis cholupdate_ok : cholupdate_spec n cholupdate.

Lemma mget_cholupdate_gram (R : mat) (x : vec) (i j : nat) :
  upper_factor n R -> length x = n -> (i < n)%nat -> (j < n)%nat ->
  mget (dot (transpose (cholupdate R x)) (cholupdate R x)) i j
  = mget (dot (transpose R) R) i j + vget x i * vget x j.
Proof.
  intros HR Hx Hi Hj; destruct (cholupdate_ok R x HR Hx) as [_ ->].
  destruct HR as (HR & _).
  rewrite (mget_madd n n); auto.
  - rewrite mget_outer by lia; reflexivity.
  - apply shape_dot_sq; auto; now apply shape_transpose_sq.
  - rewrite <- Hx at 1 2; apply shape_outer.
Qed.

Lemma fold_cholupdate (b : nat -> vec) (ds : list nat) (R : mat) :
  (forall d, length (b d) = n) ->
  upper_factor n R ->
  upper_factor n (fold_left (fun R d => cholupdate R (b d)) ds R)
  /\ forall i j, (i < n)%nat -> (j < n)%nat ->
       mget (dot (transpose (fold_left (fun R d => cholupdate R (b d)) ds R))
                 (fold_left (fun R d => cholupdate R (b d)) ds R)) i j
       = mget (dot (transpose R) R) i j
         + fold_right (fun d acc => vget (b d) i * vget (b d) j + acc) 0 ds.
Proof.
  intros Hb; revert R; induction ds as [|d ds IH]; intros R HR; simpl.
  - split; auto; intros; ring.
  - destruct (cholupdate_ok R (b d) HR (Hb d)) as [HR' _].
    destruct (IH _ HR') as [Hup Hg]; split; auto.
    intros i j Hi Hj; rewrite Hg, mget_cholupdate_gram by auto; ring.
Qed.

Lemma rank_one_factor_gram (u mean : vec) (L : mat) (lmbda nu2 : R) (gamma2 : option R) :
  length u = n -> length mean = n -> lower_factor n L ->
  0 <= lmbda < 1 -> 0 <= nu2 -> 0 <= isotropic gamma2 ->
  upper_factor n (rank_one_factor cholupdate u lmbda mean L nu2 gamma2)
  /\ forall i j, (i < n)%nat -> (j < n)%nat ->
       mget (dot (transpose (rank_one_factor cholupdate u lmbda mean L nu2 gamma2))
                 (rank_one_factor cholupdate u lmbda mean L nu2 gamma2)) i j
       = (1 - lmbda) * mget (dot L (transpose L)) i j
         + lmbda * (nu2 * (vget (vsub u mean) i * vget (vsub u mean) j)
                    + isotropic gamma2 * (if (i =? j)%nat then 1 else 0)).
Proof.
  intros Hu Hm HL Hl Hnu Hg.
  set (R0 := mscale (sqrt (1 - lmbda)) (transpose L)).
  set (x := vscale (sqrt lmbda * sqrt nu2) (vsub u mean)).
  assert (HR0 : upper_factor n R0).
  { apply upper_of_scaled_transpose; auto; apply sqrt_lt_R0; lra. }
  assert (Hx : length x = n).
  { unfold x; rewrite length_vscale, length_vsub; congruence. }
  assert (G0 : forall i j, (i < n)%nat -> (j < n)%nat ->
            mget (dot (transpose R0) R0) i j = (1 - lmbda) * mget (dot L (transpose L)) i j).
  { intros i j Hi Hj; destruct HL as (HL & _), HR0 as (HR0 & _).
    rewrite (mget_gram n), (mget_dot_transpose n) by auto.
    rewrite <- sum_n_scale; apply sum_n_ext; intros k Hk; unfold R0.
    rewrite !mget_mscale, !(mget_transpose_sq n) by auto.
    apply scaled_product; lra. }
  assert (G1 : forall i j, (i < n)%nat -> (j < n)%nat ->
            mget (dot (transpose (cholupdate R0 x)) (cholupdate R0 x)) i j
            = (1 - lmbda) * mget (dot L (transpose L)) i j
              + lmbda * (nu2 * (vget (vsub u mean) i * vget (vsub u mean) j))).
  { intros i j Hi Hj; rewrite mget_cholupdate_gram, G0 by auto.
    unfold x; rewrite !vget_vscale, scaled_product2 by lra; reflexivity. }
  destruct (cholupdate_ok R0 x HR0 Hx) as [HR1 _].
  unfold rank_one_factor; fold R0; fold x; destruct gamma2 as [g|]; simpl in Hg |- *.
  - rewrite Hu.
    destruct (fold_cholupdate (fun d => vscale (sqrt lmbda) (e_d n d (sqrt g)))
                (seq 0 n) (cholupdate R0 x)) as [Hup Hgram]; auto.
    { intros d; now rewrite length_vscale, length_e_d. }
    split; auto; intros i j Hi Hj; rewrite Hgram, G1 by auto.
    assert (E : fold_right
                  (fun d acc =>
                     vget (vscale (sqrt lmbda) (e_d n d (sqrt g))) i
                     * vget (vscale (sqrt lmbda) (e_d n d (sqrt g))) j + acc) 0 (seq 0 n)
                = lmbda * fold_right
                    (fun d acc => (if (i =? d)%nat then sqrt g else 0)
                                  * (if (j =? d)%nat then sqrt g else 0) + acc) 0 (seq 0 n)).
    { generalize (seq 0 n); intros l; induction l as [|d l IHl]; simpl; [ring|].
      rewrite IHl, !vget_vscale, !vget_e_d, scaled_product by (auto; lra); ring. }
    rewrite E; destruct (basis_outer_sum i j 0 n (sqrt g)) as [B0 B1]; simpl in B0, B1.
    destruct (Nat.eqb_spec i j) as [Hij|Hij].
    + rewrite B1 by (auto; lia); rewrite sqrt_sqrt by lra; ring.
    + rewrite B0 by auto; ring.
  - split; auto; intros i j Hi Hj; rewrite G1 by auto; ring.
Qed.

End RankOneUpdates.

(** ** The two strategies compared *)

Section Strategies.

Variables (u mean : vec) (L : mat) (lmbda nu2 : R).
Variable n : nat.
Hypothesis length_u : length u = n.
Hypothesis length_mean : length mean = n.
Hypothesis shape_L : shape n n L.

Lemma shape_blend :
  shape n n (madd (mscale (1 - lmbda) (dot L (transpose L)))
                  (mscale (lmbda * nu2) (outer (vsub u mean) (vsub u mean)))).
Proof.
  apply shape_madd; apply shape_mscale.
  - apply shape_dot_sq; auto; now apply shape_transpose_sq.
  - pose proof (shape_outer (vsub u mean) (vsub u mean)) as H.
    rewrite length_vsub in H by congruence; now rewrite length_u in H.
Qed.

Lemma mget_blend (i j : nat) :
  (i < n)%nat -> (j < n)%nat ->
  mget (madd (mscale (1 - lmbda) (dot L (transpose L)))
             (mscale (lmbda * nu2) (outer (vsub u mean) (vsub u mean)))) i j
  = (1 - lmbda) * mget (dot L (transpose L)) i j
    + lmbda * nu2 * (vget (vsub u mean) i * vget (vsub u mean) j).
Proof.
  intros Hi Hj; rewrite (mget_madd n n); auto.
  - rewrite !mget_mscale, mget_outer; auto.
    rewrite length_vsub; congruence.
  - apply shape_mscale, shape_dot_sq; auto; now apply shape_transpose_sq.
  - apply shape_mscale.
    pose proof (shape_outer (vsub u mean) (vsub u mean)) as H.
    rewrite length_vsub in H by congruence; now rewrite length_u in H.
Qed.

Lemma shape_naive_update_cov (gamma2 : option R) :
  shape n n (naive_update_cov u lmbda mean L nu2 gamma2).
Proof.
  unfold naive_update_cov; destruct gamma2 as [g|]; [|apply shape_blend].
  rewrite (nrows_square n _ shape_blend).
  apply shape_madd; [apply shape_blend | apply shape_mscale, shape_eye].
Qed.

Lemma mget_naive_update_cov (gamma2 : option R) (i j : nat) :
  (i < n)%nat -> (j < n)%nat ->
  mget (naive_update_cov u lmbda mean L nu2 gamma2) i j
  = (1 - lmbda) * mget (dot L (transpose L)) i j
    + lmbda * nu2 * (vget (vsub u mean) i * vget (vsub u mean) j)
    + isotropic gamma2 * (if (i =? j)%nat then 1 else 0).
Proof.
  intros Hi Hj; unfold naive_update_cov; destruct gamma2 as [g|]; simpl.
  - rewrite (nrows_square n _ shape_blend).
    rewrite (mget_madd n n); auto using shape_blend, shape_mscale, shape_eye.
    now rewrite mget_blend, mget_mscale, mget_eye.
  - rewrite mget_blend by auto; ring.
Qed.

Lemma naive_update_cov_symmetric (gamma2 : option R) :
  symmetric n (naive_update_cov u lmbda mean L nu2 gamma2).
Proof.
  intros i j Hi Hj; rewrite !mget_naive_update_cov by auto.
  rewrite (dot_transpose_symmetric n L shape_L i j) by auto.
  rewrite (Nat.eqb_sym j i); ring.
Qed.

Lemma shape_rule_cov (gamma2 : R) : shape n n (rule_cov u lmbda mean L nu2 gamma2).
Proof.
  unfold rule_cov; rewrite length_u.
  apply shape_madd; apply shape_mscale.
  - apply shape_dot_sq; auto; now apply shape_transpose_sq.
  - apply shape_madd; apply shape_mscale; [|apply shape_eye].
    pose proof (shape_outer (vsub u mean) (vsub u mean)) as H.
    rewrite length_vsub in H by congruence; now rewrite length_u in H.
Qed.

Lemma mget_rule_cov (gamma2 : R) (i j : nat) :
  (i < n)%nat -> (j < n)%nat ->
  mget (rule_cov u lmbda mean L nu2 gamma2) i j
  = (1 - lmbda) * mget (dot L (transpose L)) i j
    + lmbda * (nu2 * (vget (vsub u mean) i * vget (vsub u mean) j)
               + gamma2 * (if (i =? j)%nat then 1 else 0)).
Proof.
  intros Hi Hj; unfold rule_cov; rewrite length_u.
  assert (Ho : shape n n (outer (vsub u mean) (vsub u mean))).
  { pose proof (shape_outer (vsub u mean) (vsub u mean)) as H.
    rewrite length_vsub in H by congruence; now rewrite length_u in H. }
  rewrite (mget_madd n n); auto.
  - rewrite !mget_mscale, (mget_madd n n); auto using shape_mscale, shape_eye.
    rewrite !mget_mscale, mget_outer, mget_eye; auto.
    rewrite length_vsub; congruence.
  - apply shape_mscale, shape_dot_sq; auto; now apply shape_transpose_sq.
  - apply shape_mscale, shape_madd; auto using shape_mscale, shape_eye.
Qed.

End Strategies.

(** The efficient strategy realises the rule of the specification. *)
Lemma efficient_realises_rule (cholupdate : mat -> vec -> mat)
    (u : vec) (lmbda : R) (mean : option vec) (cov_L : option mat)
    (nu2 : R) (gamma2 : option R) :
  cholupdate_spec (length u) cholupdate ->
  0 <= lmbda < 1 -> 0 <= nu2 -> 0 <= isotropic gamma2 ->
  dims_ok (length u) mean cov_L ->
  lower_factor (length u) (start_factor (length u) mean cov_L nu2) ->
  exists Le,
    rank_one_update_mean_covariance_cholesky_lmbda cholupdate u lmbda mean cov_L nu2 gamma2
    = Ok (blended_mean u lmbda (start_mean (length u) mean cov_L), Le)
    /\ shape (length u) (length u) Le
    /\ dot Le (transpose Le)
       = rule_cov u lmbda (start_mean (length u) mean cov_L)
                  (start_factor (length u) mean cov_L nu2) nu2 (isotropic gamma2).
Proof.
  intros Hcu Hl Hnu Hg Hd HL.
  pose proof (length_start_mean _ _ _ Hd) as Hm.
  destruct (rank_one_factor_gram cholupdate (length u) Hcu u
              (start_mean (length u) mean cov_L) (start_factor (length u) mean cov_L nu2)
              lmbda nu2 gamma2 eq_refl Hm HL Hl Hnu Hg) as [(HR & _) Hgram].
  eexists; split; [apply rank_one_returns; auto; lra|].
  set (Rf := rank_one_factor _ _ _ _ _ _ _) in *.
  split; [now apply shape_transpose_sq|].
  rewrite (transpose_involutive (length u)) by auto.
  apply (mat_ext (length u) (length u)).
  - apply shape_dot_sq; auto; now apply shape_transpose_sq.
  - apply shape_rule_cov; auto; apply HL.
  - intros i j Hi Hj.
    rewrite (mget_rule_cov _ _ _ _ _ (length u)) by (auto; apply HL).
    now rewrite <- Hgram by auto.
Qed.

(** The fallback strategy returns a factor of the matrix it blends. *)
Lemma naive_realises_blend (cholesky : mat -> option mat)
    (u : vec) (lmbda : R) (mean : option vec) (cov_L : option mat)
    (nu2 : R) (gamma2 : option R) (Ln : mat) :
  cholesky_spec (length u) cholesky ->
  0 <= lmbda <= 1 ->
  dims_ok (length u) mean cov_L ->
  shape (length u) (length u) (start_factor (length u) mean cov_L nu2) ->
  cholesky (naive_update_cov u lmbda (start_mean (length u) mean cov_L)
              (start_factor (length u) mean cov_L nu2) nu2 gamma2) = Some Ln ->
  rank_update_mean_covariance_cholesky_lmbda_naive cholesky u lmbda mean cov_L nu2 gamma2
  = Ok (blended_mean u lmbda (start_mean (length u) mean cov_L), Ln)
  /\ shape (length u) (length u) Ln
  /\ dot Ln (transpose Ln)
     = naive_update_cov u lmbda (start_mean (length u) mean cov_L)
                        (start_factor (length u) mean cov_L nu2) nu2 gamma2.
Proof.
  intros Hch Hl Hd HL Hc.
  pose proof (length_start_mean _ _ _ Hd) as Hm.
  split; [rewrite naive_outcome, Hc by auto; reflexivity|].
  destruct (Hch _ _ (shape_naive_update_cov u _ _ lmbda nu2 (length u) eq_refl Hm HL gamma2)
              (naive_update_cov_symmetric u _ _ lmbda nu2 (length u) eq_refl Hm HL gamma2) Hc)
    as [(Hs & _) Hdot].
  split; auto.
Qed.

(** C1, as the code has it: on one input with a weight below one and a
    positive [gamma2], the efficient strategy returns a factor of the rule
    [(1-lmbda)*oldCov + lmbda*(nu2*(u-mean)(u-mean)^T + gamma2*I)], while
    the fallback strategy returns a factor of
    [(1-lmbda)*oldCov + lmbda*nu2*(u-mean)(u-mean)^T + gamma2*I]: every
    diagonal entry of the two products differs by [(1-lmbda)*gamma2], so the
    products are not equal. *)
Theorem strategies_disagree (cholupdate : mat -> vec -> mat) (cholesky : mat -> option mat)
    (u : vec) (lmbda : R) (mean : option vec) (cov_L : option mat)
    (nu2 gamma2 : R) (Ln : mat) :
  cholupdate_spec (length u) cholupdate ->
  cholesky_spec (length u) cholesky ->
  (0 < length u)%nat ->
  0 <= lmbda < 1 -> 0 <= nu2 -> 0 < gamma2 ->
  dims_ok (length u) mean cov_L ->
  lower_factor (length u) (start_factor (length u) mean cov_L nu2) ->
  cholesky (naive_update_cov u lmbda (start_mean (length u) mean cov_L)
              (start_factor (length u) mean cov_L nu2) nu2 (Some gamma2)) = Some Ln ->
  exists updated_mean Le,
    rank_one_update_mean_covariance_cholesky_lmbda cholupdate
      u lmbda mean cov_L nu2 (Some gamma2) = Ok (updated_mean, Le)
    /\ rank_update_mean_covariance_cholesky_lmbda_naive cholesky
      u lmbda mean cov_L nu2 (Some gamma2) = Ok (updated_mean, Ln)
    /\ dot Le (transpose Le)
       = rule_cov u lmbda (start_mean (length u) mean cov_L)
                  (start_factor (length u) mean cov_L nu2) nu2 gamma2
    /\ (forall i, (i < length u)%nat ->
          mget (dot Ln (transpose Ln)) i i - mget (dot Le (transpose Le)) i i
          = (1 - lmbda) * gamma2)
    /\ dot Le (transpose Le) <> dot Ln (transpose Ln).
Proof.
  intros Hcu Hch Hpos Hl Hnu Hg Hd HL Hc.
  pose proof (length_start_mean _ _ _ Hd) as Hm.
  destruct (efficient_realises_rule cholupdate u lmbda mean cov_L nu2 (Some gamma2))
    as (Le & He & _ & Hrule); auto; [simpl; lra|].
  destruct (naive_realises_blend cholesky u lmbda mean cov_L nu2 (Some gamma2) Ln)
    as (Hn & _ & Hblend); auto; [lra | apply HL|].
  assert (Hdiff : forall i, (i < length u)%nat ->
            mget (dot Ln (transpose Ln)) i i - mget (dot Le (transpose Le)) i i
            = (1 - lmbda) * gamma2).
  { intros i Hi; rewrite Hrule, Hblend; simpl in Hrule.
    rewrite (mget_naive_update_cov _ _ _ _ _ (length u)),
            (mget_rule_cov _ _ _ _ _ (length u)) by (auto; apply HL).
    simpl; rewrite Nat.eqb_refl; ring. }
  exists (blended_mean u lmbda (start_mean (length u) mean cov_L)), Le.
  repeat split; auto.
  intros Heq; specialize (Hdiff 0%nat Hpos); rewrite Heq in Hdiff; nra.
Qed.

Lemma strategies_disagree_witness :
  exists Ln updated_mean Le,
    rank_one_update_mean_covariance_cholesky_lmbda cholupdate_1x1
      [1] (1 / 2) (Some [0]) (Some [[1]]) 1 (Some 1) = Ok (updated_mean, Le)
    /\ rank_update_mean_covariance_cholesky_lmbda_naive cholesky_1x1
      [1] (1 / 2) (Some [0]) (Some [[1]]) 1 (Some 1) = Ok (updated_mean, Ln)
    /\ dot Le (transpose Le) = rule_cov [1] (1 / 2) [0] [[1]] 1 1
    /\ (forall i, (i < 1)%nat ->
          mget (dot Ln (transpose Ln)) i i - mget (dot Le (transpose Le)) i i
          = (1 - 1 / 2) * 1)
    /\ dot Le (transpose Le) <> dot Ln (transpose Ln).
Proof.
  exists [[sqrt (mget (naive_update_cov [1] (1 / 2) [0] [[1]] 1 (Some 1)) 0 0)]].
  apply (strategies_disagree cholupdate_1x1 cholesky_1x1 [1] (1 / 2)
           (Some [0]) (Some [[1]]) 1 1).
  - exact cholupdate_1x1_spec.
  - exact cholesky_1x1_spec.
  - simpl; lia.
  - lra.
  - lra.
  - lra.
  - split; [reflexivity|]. split; [reflexivity|]. intros r [<-|[]]; reflexivity.
  - split; [|split].
    + split; [reflexivity|]. intros r [<-|[]]; reflexivity.
    + intros i j Hij Hj; simpl in Hj; lia.
    + intros i Hi; simpl in Hi; replace i with 0%nat by lia; cbn; lra.
  - unfold cholesky_1x1.
    rewrite (proj2 (Rltb_true 0 _)); [reflexivity|].
    cbn; lra.
Defined.

(** The two products at the input of the witness: [3/2] by the rule, [2]
    from the fallback strategy. *)
Lemma products_at_input :
  mget (rule_cov [1] (1 / 2) [0] [[1]] 1 1) 0 0 = 3 / 2
  /\ mget (naive_update_cov [1] (1 / 2) [0] [[1]] 1 (Some 1)) 0 0 = 2.
Proof.
  split; cbn; lra.
Qed.

(** * Further properties of the code *)

(** ** Outcomes of the two covariance updates *)

Lemma dims_ok_dec (D : nat) (mean : option vec) (cov_L : option mat) :
  dims_ok D mean cov_L \/ ~ dims_ok D mean cov_L.
Proof.
  destruct mean as [m|]; [destruct cov_L as [L|]|]; try (left; exact I).
  destruct (length m =? D)%nat eqn:E1, (shape_is L D D) eqn:E2;
    try (right; intros H; apply dims_check in H as [H1 H2]; congruence).
  left; apply dims_check; auto.
Qed.

(** X1: the efficient update validates before it computes, the weight
    first: it raises [InvalidParameter] exactly when the weight is outside
    [0,1] (also when the dimensions disagree as well), [DimensionMismatch]
    exactly when the weight is valid and a present mean or factor does not
    have the dimension of the observation, and returns in every other case;
    it raises nothing else. *)
Theorem rank_one_update_outcomes (cholupdate : mat -> vec -> mat)
    (u : vec) (lmbda : R) (mean : option vec) (cov_L : option mat)
    (nu2 : R) (gamma2 : option R) :
  let r := rank_one_update_mean_covariance_cholesky_lmbda
             cholupdate u lmbda mean cov_L nu2 gamma2 in
  (r = Raise InvalidParameter <-> ~ (0 <= lmbda <= 1))
  /\ (r = Raise DimensionMismatch
      <-> 0 <= lmbda <= 1 /\ ~ dims_ok (length u) mean cov_L)
  /\ ((exists L, r = Ok (blended_mean u lmbda (start_mean (length u) mean cov_L), L))
      <-> 0 <= lmbda <= 1 /\ dims_ok (length u) mean cov_L)
  /\ (forall e, r = Raise e -> e = InvalidParameter \/ e = DimensionMismatch).
Proof.
  intros r; subst r.
  destruct (Rle_dec 0 lmbda) as [H0|H0]; [destruct (Rle_dec lmbda 1) as [H1|H1]|];
    try (rewrite rank_one_invalid by lra;
         split; [split; [intros _; lra | reflexivity]|];
         split; [split; [discriminate 1 | intros [H _]; lra]|];
         split; [split; [intros [L H]; discriminate H | intros [H _]; lra]|];
         intros e H; inversion H; now left).
  destruct (dims_ok_dec (length u) mean cov_L) as [Hd|Hd].
  - rewrite rank_one_returns by (auto; lra).
    split; [split; [discriminate 1 | intros H; elim H; lra]|].
    split; [split; [discriminate 1 | intros [_ H]; contradiction]|].
    split; [split; [intros _; split; [lra | auto] | intros _; eexists; reflexivity]|].
    intros e H; discriminate H.
  - rewrite rank_one_mismatch by (auto; lra).
    split; [split; [discriminate 1 | intros H; elim H; lra]|].
    split; [split; [intros _; split; [lra | auto] | reflexivity]|].
    split; [split; [intros [L H]; discriminate H | intros [_ H]; contradiction]|].
    intros e H; inversion H; now right.
Qed.

(** X2: the fallback update validates in the same order, and only then
    factorises: [InvalidParameter] exactly when the weight is outside [0,1],
    [DimensionMismatch] exactly when the weight is valid and the dimensions
    disagree, [LinAlgError] exactly when both checks pass and the dense
    factorisation of the blended matrix fails, and otherwise the blended mean
    with the factor the factorisation returns. *)
Theorem naive_update_outcomes (cholesky : mat -> option mat)
    (u : vec) (lmbda : R) (mean : option vec) (cov_L : option mat)
    (nu2 : R) (gamma2 : option R) :
  let r := rank_update_mean_covariance_cholesky_lmbda_naive
             cholesky u lmbda mean cov_L nu2 gamma2 in
  let M := naive_update_cov u lmbda (start_mean (length u) mean cov_L)
             (start_factor (length u) mean cov_L nu2) nu2 gamma2 in
  (r = Raise InvalidParameter <-> ~ (0 <= lmbda <= 1))
  /\ (r = Raise DimensionMismatch
      <-> 0 <= lmbda <= 1 /\ ~ dims_ok (length u) mean cov_L)
  /\ (r = Raise LinAlgError
      <-> 0 <= lmbda <= 1 /\ dims_ok (length u) mean cov_L /\ cholesky M = None)
  /\ (forall L, r = Ok (blended_mean u lmbda (start_mean (length u) mean cov_L), L)
      <-> 0 <= lmbda <= 1 /\ dims_ok (length u) mean cov_L /\ cholesky M = Some L).
Proof.
  intros r M; subst r M.
  destruct (Rle_dec 0 lmbda) as [H0|H0]; [destruct (Rle_dec lmbda 1) as [H1|H1]|];
    try (rewrite naive_invalid by lra;
         split; [split; [intros _; lra | reflexivity]|];
         split; [split; [discriminate 1 | intros [H _]; lra]|];
         split; [split; [discriminate 1 | intros [H _]; lra]|];
         intros L; split; [discriminate 1 | intros [H _]; lra]).
  destruct (dims_ok_dec (length u) mean cov_L) as [Hd|Hd].
  - rewrite naive_outcome by (auto; lra).
    destruct (cholesky _) as [Lc|].
    + split; [split; [discriminate 1 | intros H; elim H; lra]|].
      split; [split; [discriminate 1 | intros [_ H]; contradiction]|].
      split; [split; [discriminate 1 | intros (_ & _ & H); discriminate H]|].
      intros L; split.
      * intros H; inversion H; subst; repeat split; auto; lra.
      * intros (_ & _ & H); inversion H; reflexivity.
    + split; [split; [discriminate 1 | intros H; elim H; lra]|].
      split; [split; [discriminate 1 | intros [_ H]; contradiction]|].
      split; [split; [intros _; repeat split; auto; lra | reflexivity]|].
      intros L; split; [discriminate 1 | intros (_ & _ & H); discriminate H].
  - rewrite naive_mismatch by (auto; lra).
    split; [split; [discriminate 1 | intros H; elim H; lra]|].
    split; [split; [intros _; split; [lra | auto] | reflexivity]|].
    split; [split; [discriminate 1 | intros (_ & H & _); contradiction]|].
    intros L; split; [discriminate 1 | intros (_ & H & _); contradiction].
Qed.

(** ** What the two updates compute *)

Lemma lower_of_transposed_upper (n : nat) (R : mat) :
  upper_factor n R -> lower_factor n (transpose R).
Proof.
  intros (HR & Hz & Hp); split; [|split].
  - now apply shape_transpose_sq.
  - intros i j Hij Hj; rewrite (mget_transpose_sq n) by (auto; lia).
    apply Hz; auto.
  - intros i Hi; rewrite (mget_transpose_sq n) by auto; now apply Hp.
Qed.

(** X3: on a valid lower triangular factor, with a weight in [0,1) and
    non-negative [nu2] and [gamma2], the efficient update returns a lower
    triangular factor with a positive diagonal whose product with its
    transpose is, entry by entry,
    [(1-lmbda)*oldCov + lmbda*(nu2*(u-mean)(u-mean)^T + gamma2*I)], for any
    rank-one updater that meets its contract. *)
Theorem efficient_update_rule (cholupdate : mat -> vec -> mat)
    (u : vec) (lmbda : R) (mean : option vec) (cov_L : option mat)
    (nu2 : R) (gamma2 : option R) :
  cholupdate_spec (length u) cholupdate ->
  0 <= lmbda < 1 -> 0 <= nu2 -> 0 <= isotropic gamma2 ->
  dims_ok (length u) mean cov_L ->
  lower_factor (length u) (start_factor (length u) mean cov_L nu2) ->
  exists Le,
    rank_one_update_mean_covariance_cholesky_lmbda cholupdate u lmbda mean cov_L nu2 gamma2
    = Ok (blended_mean u lmbda (start_mean (length u) mean cov_L), Le)
    /\ lower_factor (length u) Le
    /\ forall i j, (i < length u)%nat -> (j < length u)%nat ->
         mget (dot Le (transpose Le)) i j
         = (1 - lmbda)
           * mget (dot (start_factor (length u) mean cov_L nu2)
                       (transpose (start_factor (length u) mean cov_L nu2))) i j
           + lmbda * (nu2 * (vget (vsub u (start_mean (length u) mean cov_L)) i
                             * vget (vsub u (start_mean (length u) mean cov_L)) j)
                      + isotropic gamma2 * (if (i =? j)%nat then 1 else 0)).
Proof.
  intros Hcu Hl Hnu Hg Hd HL.
  pose proof (length_start_mean _ _ _ Hd) as Hm.
  destruct (rank_one_factor_gram cholupdate (length u) Hcu u
              (start_mean (length u) mean cov_L) (start_factor (length u) mean cov_L nu2)
              lmbda nu2 gamma2 eq_refl Hm HL Hl Hnu Hg) as [HR Hgram].
  eexists; split; [apply rank_one_returns; auto; lra|].
  split; [now apply lower_of_transposed_upper|].
  intros i j Hi Hj.
  rewrite (transpose_involutive (length u)) by apply HR.
  now apply Hgram.
Qed.

Lemma lower_factor_1x1 (x : R) : 0 < x -> lower_factor 1 [[x]].
Proof.
  intros Hx; split; [|split].
  - split; [reflexivity|]. intros r [<-|[]]; reflexivity.
  - intros i j Hij Hj; lia.
  - intros i Hi; replace i with 0%nat by lia; exact Hx.
Qed.

Lemma efficient_update_rule_witness :
  exists Le,
    rank_one_update_mean_covariance_cholesky_lmbda cholupdate_1x1
      [1] (1 / 2) (Some [0]) (Some [[1]]) 1 (Some 1)
    = Ok (blended_mean [1] (1 / 2) [0], Le)
    /\ lower_factor 1 Le
    /\ forall i j, (i < 1)%nat -> (j < 1)%nat ->
         mget (dot Le (transpose Le)) i j
         = (1 - 1 / 2) * mget (dot [[1]] (transpose [[1]])) i j
           + 1 / 2 * (1 * (vget (vsub [1] [0]) i * vget (vsub [1] [0]) j)
                      + 1 * (if (i =? j)%nat then 1 else 0)).
Proof.
  apply (efficient_update_rule cholupdate_1x1 [1] (1 / 2) (Some [0]) (Some [[1]]) 1 (Some 1)).
  - exact cholupdate_1x1_spec.
  - lra.
  - lra.
  - simpl; lra.
  - split; [reflexivity|]. split; [reflexivity|]. intros r [<-|[]]; reflexivity.
  - apply lower_factor_1x1; lra.
Defined.

(** X4: where the dense factorisation meets its contract and succeeds, the
    fallback update returns a lower triangular factor with a positive
    diagonal whose product with its transpose is, entry by entry,
    [(1-lmbda)*oldCov + lmbda*nu2*(u-mean)(u-mean)^T + gamma2*I]: the
    isotropic term enters with weight one. *)
Theorem naive_update_blend (cholesky : mat -> option mat)
    (u : vec) (lmbda : R) (mean : option vec) (cov_L : option mat)
    (nu2 : R) (gamma2 : option R) (Ln : mat) :
  cholesky_spec (length u) cholesky ->
  0 <= lmbda <= 1 ->
  dims_ok (length u) mean cov_L ->
  shape (length u) (length u) (start_factor (length u) mean cov_L nu2) ->
  cholesky (naive_update_cov u lmbda (start_mean (length u) mean cov_L)
              (start_factor (length u) mean cov_L nu2) nu2 gamma2) = Some Ln ->
  rank_update_mean_covariance_cholesky_lmbda_naive cholesky u lmbda mean cov_L nu2 gamma2
  = Ok (blended_mean u lmbda (start_mean (length u) mean cov_L), Ln)
  /\ lower_factor (length u) Ln
  /\ forall i j, (i < length u)%nat -> (j < length u)%nat ->
       mget (dot Ln (transpose Ln)) i j
       = (1 - lmbda)
         * mget (dot (start_factor (length u) mean cov_L nu2)
                     (transpose (start_factor (length u) mean cov_L nu2))) i j
         + lmbda * nu2 * (vget (vsub u (start_mean (length u) mean cov_L)) i
                          * vget (vsub u (start_mean (length u) mean cov_L)) j)
         + isotropic gamma2 * (if (i =? j)%nat then 1 else 0).
Proof.
  intros Hch Hl Hd HL Hc.
  pose proof (length_start_mean _ _ _ Hd) as Hm.
  split; [rewrite naive_outcome, Hc by auto; reflexivity|].
  destruct (Hch _ _ (shape_naive_update_cov u _ _ lmbda nu2 (length u) eq_refl Hm HL gamma2)
              (naive_update_cov_symmetric u _ _ lmbda nu2 (length u) eq_refl Hm HL gamma2) Hc)
    as [Hlow Hdot].
  split; auto.
  intros i j Hi Hj; rewrite Hdot.
  now apply (mget_naive_update_cov _ _ _ _ _ (length u)).
Qed.

Lemma shape_1x1_intro (x : R) : shape 1 1 [[x]].
Proof. split; [reflexivity|]. intros r [<-|[]]; reflexivity. Qed.

Lemma naive_update_blend_witness :
  exists Ln,
    rank_update_mean_covariance_cholesky_lmbda_naive cholesky_1x1
      [1] (1 / 2) (Some [0]) (Some [[1]]) 1 (Some 1)
    = Ok (blended_mean [1] (1 / 2) [0], Ln)
    /\ lower_factor 1 Ln
    /\ forall i j, (i < 1)%nat -> (j < 1)%nat ->
         mget (dot Ln (transpose Ln)) i j
         = (1 - 1 / 2) * mget (dot [[1]] (transpose [[1]])) i j
           + 1 / 2 * 1 * (vget (vsub [1] [0]) i * vget (vsub [1] [0]) j)
           + 1 * (if (i =? j)%nat then 1 else 0).
Proof.
  exists [[sqrt (mget (naive_update_cov [1] (1 / 2) [0] [[1]] 1 (Some 1)) 0 0)]].
  apply (naive_update_blend cholesky_1x1 [1] (1 / 2) (Some [0]) (Some [[1]]) 1 (Some 1)).
  - exact cholesky_1x1_spec.
  - lra.
  - split; [reflexivity | apply shape_1x1_intro].
  - apply shape_1x1_intro.
  - unfold cholesky_1x1.
    rewrite (proj2 (Rltb_true 0 _)); [reflexivity|].
    cbn; lra.
Defined.

(** X5: without an isotropic term ([gamma2] absent or zero) the two
    strategies agree: on one input with a weight in [0,1), they return the
    same mean and factors with equal products [L L^T]. *)
Theorem strategies_agree_without_isotropic (cholupdate : mat -> vec -> mat)
    (cholesky : mat -> option mat)
    (u : vec) (lmbda : R) (mean : option vec) (cov_L : option mat)
    (nu2 : R) (gamma2 : option R) (Ln : mat) :
  cholupdate_spec (length u) cholupdate ->
  cholesky_spec (length u) cholesky ->
  0 <= lmbda < 1 -> 0 <= nu2 -> isotropic gamma2 = 0 ->
  dims_ok (length u) mean cov_L ->
  lower_factor (length u) (start_factor (length u) mean cov_L nu2) ->
  cholesky (naive_update_cov u lmbda (start_mean (length u) mean cov_L)
              (start_factor (length u) mean cov_L nu2) nu2 gamma2) = Some Ln ->
  exists updated_mean Le,
    rank_one_update_mean_covariance_cholesky_lmbda cholupdate
      u lmbda mean cov_L nu2 gamma2 = Ok (updated_mean, Le)
    /\ rank_update_mean_covariance_cholesky_lmbda_naive cholesky
      u lmbda mean cov_L nu2 gamma2 = Ok (updated_mean, Ln)
    /\ dot Le (transpose Le) = dot Ln (transpose Ln).
Proof.
  intros Hcu Hch Hl Hnu Hg Hd HL Hc.
  pose proof (length_start_mean _ _ _ Hd) as Hm.
  destruct (efficient_realises_rule cholupdate u lmbda mean cov_L nu2 gamma2)
    as (Le & He & _ & Hrule); auto; [lra|].
  destruct (naive_realises_blend cholesky u lmbda mean cov_L nu2 gamma2 Ln)
    as (Hn & _ & Hblend); auto; [lra | apply HL|].
  do 2 eexists; split; [exact He|]; split; [exact Hn|].
  rewrite Hrule, Hblend.
  apply (mat_ext (length u) (length u)).
  - apply shape_rule_cov; auto; apply HL.
  - apply shape_naive_update_cov; auto; apply HL.
  - intros i j Hi Hj.
    rewrite (mget_naive_update_cov _ _ _ _ _ (length u)),
            (mget_rule_cov _ _ _ _ _ (length u)) by (auto; apply HL).
    rewrite Hg; ring.
Qed.

Lemma strategies_agree_without_isotropic_witness :
  exists Ln updated_mean Le,
    rank_one_update_mean_covariance_cholesky_lmbda cholupdate_1x1
      [1] (1 / 2) (Some [0]) (Some [[1]]) 1 None = Ok (updated_mean, Le)
    /\ rank_update_mean_covariance_cholesky_lmbda_naive cholesky_1x1
      [1] (1 / 2) (Some [0]) (Some [[1]]) 1 None = Ok (updated_mean, Ln)
    /\ dot Le (transpose Le) = dot Ln (transpose Ln).
Proof.
  exists [[sqrt (mget (naive_update_cov [1] (1 / 2) [0] [[1]] 1 None) 0 0)]].
  apply (strategies_agree_without_isotropic cholupdate_1x1 cholesky_1x1
           [1] (1 / 2) (Some [0]) (Some [[1]]) 1 None).
  - exact cholupdate_1x1_spec.
  - exact cholesky_1x1_spec.
  - lra.
  - lra.
  - reflexivity.
  - split; [reflexivity | apply shape_1x1_intro].
  - apply lower_factor_1x1; lra.
  - unfold cholesky_1x1.
    rewrite (proj2 (Rltb_true 0 _)); [reflexivity|].
    cbn; lra.
Defined.

(** X6: the updated mean is a convex combination.  With a weight in [0,1],
    every component of the mean both strategies return lies between bounds
    that hold for the components of the previous mean and of the
    observation; with weight zero the mean is the previous one, with weight
    one it is the observation. *)
Theorem updated_mean_convex (cholupdate : mat -> vec -> mat) (cholesky : mat -> option mat)
    (u : vec) (lmbda : R) (mean : option vec) (cov_L : option mat)
    (nu2 : R) (gamma2 : option R) (a b : R) :
  0 <= lmbda <= 1 ->
  dims_ok (length u) mean cov_L ->
  (forall i, (i < length u)%nat ->
     a <= vget (start_mean (length u) mean cov_L) i <= b /\ a <= vget u i <= b) ->
  exists updated_mean Le,
    rank_one_update_mean_covariance_cholesky_lmbda cholupdate u lmbda mean cov_L nu2 gamma2
    = Ok (updated_mean, Le)
    /\ (forall m Ln,
          rank_update_mean_covariance_cholesky_lmbda_naive cholesky
            u lmbda mean cov_L nu2 gamma2 = Ok (m, Ln) -> m = updated_mean)
    /\ (forall i, (i < length u)%nat -> a <= vget updated_mean i <= b)
    /\ (lmbda = 0 -> updated_mean = start_mean (length u) mean cov_L)
    /\ (lmbda = 1 -> updated_mean = u).
Proof.
  intros Hl Hd Hb.
  pose proof (length_start_mean _ _ _ Hd) as Hm.
  do 2 eexists; split; [now apply rank_one_returns|].
  split.
  { intros m Ln; rewrite naive_outcome by auto.
    destruct (cholesky _); intros H; now inversion H. }
  split.
  { intros i Hi; rewrite vget_blended_mean by auto.
    destruct (Hb i Hi) as [H1 H2]; nra. }
  split; intros ->; apply vec_ext;
    try (rewrite length_blended_mean; congruence);
    intros i Hi; rewrite length_blended_mean in Hi by auto;
    rewrite vget_blended_mean by auto; ring.
Qed.

Lemma updated_mean_convex_witness :
  exists updated_mean Le,
    rank_one_update_mean_covariance_cholesky_lmbda cholupdate_1x1
      [1] (1 / 2) (Some [0]) (Some [[1]]) 1 (Some 1) = Ok (updated_mean, Le)
    /\ (forall m Ln,
          rank_update_mean_covariance_cholesky_lmbda_naive cholesky_1x1
            [1] (1 / 2) (Some [0]) (Some [[1]]) 1 (Some 1) = Ok (m, Ln) -> m = updated_mean)
    /\ (forall i, (i < 1)%nat -> 0 <= vget updated_mean i <= 1)
    /\ (1 / 2 = 0 -> updated_mean = [0])
    /\ (1 / 2 = 1 -> updated_mean = [1]).
Proof.
  apply (updated_mean_convex cholupdate_1x1 cholesky_1x1 [1] (1 / 2)
           (Some [0]) (Some [[1]]) 1 (Some 1) 0 1).
  - lra.
  - split; [reflexivity | apply shape_1x1_intro].
  - intros i Hi; simpl in Hi; replace i with 0%nat by lia; cbn; lra.
Defined.

(** ** The controller over several calls *)

Section ControllerRuns.

Variable cholupdate : option (mat -> vec -> mat).
Variable cholesky : mat -> option mat.
Variables np_exp np_log : R -> R.

Lemma covariance_update_invalid (u : vec) (lmbda : R) (mean : option vec)
    (cov_L : option mat) (nu2 : R) (gamma2 : option R) :
  ~ (0 <= lmbda <= 1) ->
  covariance_update cholupdate cholesky u lmbda mean cov_L nu2 gamma2
  = Raise InvalidParameter.
Proof.
  intros H; unfold covariance_update; destruct cholupdate;
    [now apply rank_one_invalid | now apply naive_invalid].
Qed.

Lemma covariance_update_mismatch (u : vec) (lmbda : R) (mean : option vec)
    (cov_L : option mat) (nu2 : R) (gamma2 : option R) :
  0 <= lmbda <= 1 -> ~ dims_ok (length u) mean cov_L ->
  covariance_update cholupdate cholesky u lmbda mean cov_L nu2 gamma2
  = Raise DimensionMismatch.
Proof.
  intros Hl H; unfold covariance_update; destruct cholupdate;
    [now apply rank_one_mismatch | now apply naive_mismatch].
Qed.

Lemma covariance_update_matching (u : vec) (lmbda : R) (mean : option vec)
    (cov_L : option mat) (nu2 : R) (gamma2 : option R) :
  0 <= lmbda <= 1 -> dims_ok (length u) mean cov_L ->
  covariance_update cholupdate cholesky u lmbda mean cov_L nu2 gamma2
  <> Raise DimensionMismatch.
Proof.
  intros Hl H; unfold covariance_update; destruct cholupdate.
  - rewrite rank_one_returns by auto; discriminate.
  - rewrite naive_outcome by auto; destruct (cholesky _); discriminate.
Qed.

(** What any call of [update] leaves untouched. *)
Lemma update_frame (self self' : AdaptiveMetropolis) (z_new : vec) (p : R)
    (r : result unit) :
  update cholupdate cholesky np_exp np_log z_new p self = (r, self') ->
  t self' = (t self + 1)%nat
  /\ D self' = D self /\ gamma2 self' = gamma2 self /\ target self' = target self
  /\ schedule self' = schedule self /\ acc_star self' = acc_star self
  /\ (np_exp_spec np_exp -> 0 <= nu2 self -> 0 <= nu2 self')
  /\ (schedule self = None \/ acc_star self = None -> nu2 self' = nu2 self).
Proof.
  destruct (schedule self) as [sch|] eqn:Hs.
  - rewrite (update_scheduled _ _ _ _ _ _ _ sch Hs).
    destruct (covariance_update _ _ _ _ _ _ _ _) as [[m L]|e].
    + destruct (acc_star self) as [a|] eqn:Ha; intros H; inversion H; subst; cbn;
        rewrite ?Hs, ?Ha; repeat split; auto.
      * intros [Hpos _] _; apply Hpos.
      * intros [H1|H1]; discriminate H1.
    + intros H; inversion H; subst; cbn; rewrite ?Hs; repeat split; auto.
  - rewrite update_unscheduled by auto.
    intros H; inversion H; subst; cbn; rewrite ?Hs; repeat split; auto.
Qed.

Lemma batch_frame (self self' : AdaptiveMetropolis) (Z : mat) (r : result unit) :
  set_batch_covariance cholesky Z self = (r, self') ->
  t self' = t self
  /\ D self' = D self /\ gamma2 self' = gamma2 self /\ target self' = target self
  /\ schedule self' = schedule self /\ acc_star self' = acc_star self
  /\ nu2 self' = nu2 self.
Proof.
  rewrite set_batch_covariance_outcome; destruct (cholesky _);
    intros H; inversion H; subst; cbn; repeat split; reflexivity.
Qed.

(** X7: the iteration counter counts the calls of [update]: after [n] of
    them, failed ones included, and any number of batch initialisations in
    between, [t] has grown by exactly [n], and the configuration ([D],
    [gamma2], the target, the schedule and [acc_star]) is the one the run
    started with. *)
Theorem calls_counted (self self' : AdaptiveMetropolis) (n : nat) :
  calls cholupdate cholesky np_exp np_log self n self' ->
  t self' = (t self + n)%nat
  /\ D self' = D self /\ gamma2 self' = gamma2 self /\ target self' = target self
  /\ schedule self' = schedule self /\ acc_star self' = acc_star self.
Proof.
  induction 1 as [self | self n self1 z p r self' _ IH Hu | self n self1 Z r self' _ IH Hb].
  - repeat split; auto; lia.
  - apply update_frame in Hu.
    destruct IH as (I1 & I2 & I3 & I4 & I5 & I6), Hu as (U1 & U2 & U3 & U4 & U5 & U6 & _).
    repeat split; try congruence; lia.
  - apply batch_frame in Hb.
    destruct IH as (I1 & I2 & I3 & I4 & I5 & I6), Hb as (U1 & U2 & U3 & U4 & U5 & U6 & _).
    repeat split; congruence.
Qed.

Lemma calls_config (self self' : AdaptiveMetropolis) (n : nat) :
  calls cholupdate cholesky np_exp np_log self n self' ->
  schedule self' = schedule self /\ acc_star self' = acc_star self.
Proof.
  induction 1 as [self | self n self1 z p r self' _ IH Hu | self n self1 Z r self' _ IH Hb].
  - split; reflexivity.
  - apply update_frame in Hu; destruct IH, Hu as (_ & _ & _ & _ & U5 & U6 & _).
    split; congruence.
  - apply batch_frame in Hb; destruct IH, Hb as (_ & _ & _ & _ & U5 & U6 & _).
    split; congruence.
Qed.

(** X8: [nu2] never turns negative, and moves only by scale adaptation:
    over any run of [update] and [set_batch_covariance] calls a non-negative
    [nu2] stays non-negative (for an exponential that is never negative),
    and [nu2] does not change at all unless both a schedule and a target
    acceptance rate are configured. *)
Theorem nu2_over_calls (self self' : AdaptiveMetropolis) (n : nat) :
  calls cholupdate cholesky np_exp np_log self n self' ->
  (np_exp_spec np_exp -> 0 <= nu2 self -> 0 <= nu2 self')
  /\ (schedule self = None \/ acc_star self = None -> nu2 self' = nu2 self).
Proof.
  induction 1 as [self | self n self1 z p r self' Hc IH Hu | self n self1 Z r self' Hc IH Hb].
  - split; auto.
  - destruct (calls_config _ _ _ Hc) as [C1 C2].
    apply update_frame in Hu; destruct Hu as (_ & _ & _ & _ & _ & _ & U7 & U8), IH as [I1 I2].
    split; [auto|].
    intros Hn; rewrite U8, I2; auto; rewrite C1, C2; auto.
  - apply batch_frame in Hb; destruct Hb as (_ & _ & _ & _ & _ & _ & U7), IH as [I1 I2].
    split; [intros Hsp Hn | intros Hn]; rewrite U7; auto.
Qed.

End ControllerRuns.

Lemma one_call_unscheduled :
  calls None cholesky_1x1 exp64 ln unscheduled 1 (set_t unscheduled (t unscheduled + 1)).
Proof.
  apply (calls_update _ _ _ _ unscheduled 0 unscheduled [1] (1 / 2) (Ok tt)).
  - apply calls_none.
  - now apply update_unscheduled.
Qed.

Lemma calls_counted_witness :
  t (set_t unscheduled (t unscheduled + 1)) = (t unscheduled + 1)%nat
  /\ D (set_t unscheduled (t unscheduled + 1)) = D unscheduled
  /\ gamma2 (set_t unscheduled (t unscheduled + 1)) = gamma2 unscheduled
  /\ target (set_t unscheduled (t unscheduled + 1)) = target unscheduled
  /\ schedule (set_t unscheduled (t unscheduled + 1)) = schedule unscheduled
  /\ acc_star (set_t unscheduled (t unscheduled + 1)) = acc_star unscheduled.
Proof.
  exact (calls_counted None cholesky_1x1 exp64 ln unscheduled _ 1 one_call_unscheduled).
Defined.

Lemma nu2_over_calls_witness :
  (np_exp_spec exp64 -> 0 <= nu2 unscheduled ->
   0 <= nu2 (set_t unscheduled (t unscheduled + 1)))
  /\ (schedule unscheduled = None \/ acc_star unscheduled = None ->
      nu2 (set_t unscheduled (t unscheduled + 1)) = nu2 unscheduled).
Proof.
  exact (nu2_over_calls None cholesky_1x1 exp64 ln unscheduled _ 1 one_call_unscheduled).
Defined.

(** ** The estimate stays a valid factor *)

Lemma rank_one_returns_factor (cholupdate : mat -> vec -> mat)
    (u : vec) (lmbda : R) (mean : option vec) (cov_L : option mat)
    (nu2 : R) (gamma2 : option R) :
  cholupdate_spec (length u) cholupdate ->
  0 <= lmbda < 1 -> 0 <= nu2 -> 0 <= isotropic gamma2 ->
  dims_ok (length u) mean cov_L ->
  lower_factor (length u) (start_factor (length u) mean cov_L nu2) ->
  exists Le,
    rank_one_update_mean_covariance_cholesky_lmbda cholupdate u lmbda mean cov_L nu2 gamma2
    = Ok (blended_mean u lmbda (start_mean (length u) mean cov_L), Le)
    /\ lower_factor (length u) Le.
Proof.
  intros Hcu Hl Hnu Hg Hd HL.
  pose proof (length_start_mean _ _ _ Hd) as Hm.
  destruct (rank_one_factor_gram cholupdate (length u) Hcu u
              (start_mean (length u) mean cov_L) (start_factor (length u) mean cov_L nu2)
              lmbda nu2 gamma2 eq_refl Hm HL Hl Hnu Hg) as [HR _].
  eexists; split; [apply rank_one_returns; auto; lra|].
  now apply lower_of_transposed_upper.
Qed.

Lemma naive_returns_factor (cholesky : mat -> option mat)
    (u : vec) (lmbda : R) (mean : option vec) (cov_L : option mat)
    (nu2 : R) (gamma2 : option R) :
  cholesky_spec (length u) cholesky ->
  0 <= lmbda <= 1 ->
  dims_ok (length u) mean cov_L ->
  shape (length u) (length u) (start_factor (length u) mean cov_L nu2) ->
  cholesky (naive_update_cov u lmbda (start_mean (length u) mean cov_L)
              (start_factor (length u) mean cov_L nu2) nu2 gamma2) <> None ->
  exists Ln,
    rank_update_mean_covariance_cholesky_lmbda_naive cholesky u lmbda mean cov_L nu2 gamma2
    = Ok (blended_mean u lmbda (start_mean (length u) mean cov_L), Ln)
    /\ lower_factor (length u) Ln.
Proof.
  intros Hch Hl Hd HL Hc.
  pose proof (length_start_mean _ _ _ Hd) as Hm.
  rewrite naive_outcome by auto.
  destruct (cholesky _) as [Ln|] eqn:E; [|now elim Hc].
  exists Ln; split; [reflexivity|].
  apply (Hch _ _ (shape_naive_update_cov u _ _ lmbda nu2 (length u) eq_refl Hm HL gamma2)
           (naive_update_cov_symmetric u _ _ lmbda nu2 (length u) eq_refl Hm HL gamma2) E).
Qed.

(** X9: [update] keeps the estimate valid.  On a scheduled controller that
    holds a mean of the observation's length and a lower triangular factor
    with a positive diagonal, with a weight in [0,1) and non-negative [nu2]
    and [gamma2], a call of [update] returns and leaves the blended mean, of
    the same length, and again a lower triangular factor with a positive
    diagonal, with either strategy, provided the numerical collaborator of
    that strategy meets its contract (and the dense factorisation
    succeeds). *)
Theorem update_keeps_factor (cholupdate : option (mat -> vec -> mat))
    (cholesky : mat -> option mat) (np_exp np_log : R -> R) (self : AdaptiveMetropolis)
    (z_new : vec) (previous_accpept_prob : R) (sch : nat -> R) (m : vec) (L : mat) :
  schedule self = Some sch -> mu self = Some m -> L_C self = Some L ->
  length m = length z_new -> lower_factor (length z_new) L ->
  0 <= sch (t self + 1)%nat < 1 -> 0 <= nu2 self -> 0 <= gamma2 self ->
  (forall cu, cholupdate = Some cu -> cholupdate_spec (length z_new) cu) ->
  (cholupdate = None ->
   cholesky_spec (length z_new) cholesky
   /\ cholesky (naive_update_cov z_new (sch (t self + 1)%nat) m L (nu2 self)
                  (Some (gamma2 self))) <> None) ->
  exists self' L',
    update cholupdate cholesky np_exp np_log z_new previous_accpept_prob self = (Ok tt, self')
    /\ mu self' = Some (blended_mean z_new (sch (t self + 1)%nat) m)
    /\ length (blended_mean z_new (sch (t self + 1)%nat) m) = length z_new
    /\ L_C self' = Some L'
    /\ lower_factor (length z_new) L'.
Proof.
  intros Hs Hm HL Hlen Hlow Hl Hnu Hg Hcu Hch.
  assert (Hd : dims_ok (length z_new) (Some m) (Some L)) by (split; [auto | apply Hlow]).
  assert (Hcov : exists L',
            covariance_update cholupdate cholesky z_new (sch (t self + 1)%nat)
              (Some m) (Some L) (nu2 self) (Some (gamma2 self))
            = Ok (blended_mean z_new (sch (t self + 1)%nat) m, L')
            /\ lower_factor (length z_new) L').
  { unfold covariance_update; destruct cholupdate as [cu|].
    - apply (rank_one_returns_factor cu z_new _ (Some m) (Some L)); auto.
    - destruct (Hch eq_refl) as [Hspec Hsome].
      apply (naive_returns_factor cholesky z_new _ (Some m) (Some L)); auto;
        [lra | apply Hlow]. }
  destruct Hcov as (L' & Hcov & Hlow').
  rewrite (update_scheduled _ _ _ _ _ _ _ sch Hs), Hm, HL, Hcov.
  destruct (acc_star self); do 2 eexists; (split; [reflexivity|]); cbn;
    (split; [reflexivity|]); (split; [now apply length_blended_mean|]);
    (split; [reflexivity | exact Hlow']).
Qed.

Lemma update_keeps_factor_witness :
  exists self' L',
    update (Some cholupdate_1x1) cholesky_1x1 exp64 ln [1] (1 / 2) scheduled = (Ok tt, self')
    /\ mu self' = Some (blended_mean [1] (harmonic (t scheduled + 1)) (zeros 1))
    /\ length (blended_mean [1] (harmonic (t scheduled + 1)) (zeros 1)) = 1%nat
    /\ L_C self' = Some L'
    /\ lower_factor 1 L'.
Proof.
  apply (update_keeps_factor (Some cholupdate_1x1) cholesky_1x1 exp64 ln scheduled [1] (1 / 2)
           harmonic (zeros 1) (mscale (sqrt 1) (eye 1))).
  - reflexivity.
  - reflexivity.
  - reflexivity.
  - reflexivity.
  - cbn; rewrite sqrt_1; replace (1 * 1) with 1 by ring; apply lower_factor_1x1; lra.
  - change (t scheduled + 1)%nat with 1%nat; rewrite harmonic_1; lra.
  - cbn; lra.
  - cbn; lra.
  - intros cu H; inversion H; exact cholupdate_1x1_spec.
  - discriminate 1.
Defined.

(** ** Batch initialisation: failure and what follows a success *)

(** X10: a failed batch initialisation is a partial update.  When the dense
    factorisation fails, [set_batch_covariance] raises [LinAlgError], has
    already replaced the mean by the sample mean, and leaves the factor as
    it was; a controller without schedule that had no factor still raises
    [NotReady] on [proposal] afterwards. *)
Theorem failed_batch_is_partial (cholesky : mat -> option mat) (np_exp : R -> R)
    (self : AdaptiveMetropolis) (Z : mat) :
  cholesky (batch_cov self Z) = None ->
  exists self',
    set_batch_covariance cholesky Z self = (Raise LinAlgError, self')
    /\ mu self' = Some (mean_axis0 Z)
    /\ L_C self' = L_C self
    /\ (schedule self = None -> L_C self = None ->
        forall z current current_log_pdf,
          proposal np_exp self' z current current_log_pdf = Raise NotReady).
Proof.
  intros Hc; rewrite set_batch_covariance_outcome, Hc.
  eexists; split; [reflexivity|]; cbn.
  split; [reflexivity|]. split; [reflexivity|].
  intros Hs HL z current clp; unfold proposal; cbn; rewrite Hs, HL; reflexivity.
Qed.

Lemma batch_const_fails : cholesky_1x1 (batch_cov unscheduled_bare batch_const) = None.
Proof.
  unfold cholesky_1x1.
  rewrite (proj2 (Rltb_false 0 _)); [reflexivity|].
  cbn; lra.
Qed.

Lemma failed_batch_is_partial_witness :
  exists self',
    set_batch_covariance cholesky_1x1 batch_const unscheduled_bare
    = (Raise LinAlgError, self')
    /\ mu self' = Some (mean_axis0 batch_const)
    /\ L_C self' = L_C unscheduled_bare
    /\ (schedule unscheduled_bare = None -> L_C unscheduled_bare = None ->
        forall z current current_log_pdf,
          proposal exp64 self' z current current_log_pdf = Raise NotReady).
Proof.
  exact (failed_batch_is_partial cholesky_1x1 exp64 unscheduled_bare batch_const batch_const_fails).
Defined.

(** X12: a successful batch initialisation makes the controller ready,
    with or without a schedule: [proposal] then returns the draw around
    [current] through the batch factor, with its acceptance probability and
    log-density. *)
Theorem batch_then_proposal (cholesky : mat -> option mat) (np_exp : R -> R)
    (self : AdaptiveMetropolis) (Z : mat) (L : mat)
    (z current : vec) (current_log_pdf : option R) :
  cholesky (batch_cov self Z) = Some L ->
  exists self' candidate,
    set_batch_covariance cholesky Z self = (Ok tt, self')
    /\ candidate = sample_gaussian z current L
    /\ proposal np_exp self' z current current_log_pdf
       = Ok (candidate,
             np_exp (Rmin 0 (log_pdf (target self) candidate
                          - match current_log_pdf with
                            | Some c => c
                            | None => log_pdf (target self) current
                            end)),
             log_pdf (target self) candidate).
Proof.
  intros Hc; rewrite set_batch_covariance_outcome, Hc.
  do 2 eexists; split; [reflexivity|]. split; [reflexivity|].
  unfold proposal; cbn; rewrite andb_false_r; reflexivity.
Qed.

Lemma batch_1d_factorises :
  cholesky_1x1 (batch_cov unscheduled_3 batch_1d)
  = Some [[sqrt (mget (batch_cov unscheduled_3 batch_1d) 0 0)]].
Proof.
  unfold cholesky_1x1.
  rewrite (proj2 (Rltb_true 0 _)); [reflexivity|].
  cbn; lra.
Qed.

Lemma batch_then_proposal_witness :
  exists self' candidate,
    set_batch_covariance cholesky_1x1 batch_1d unscheduled_3 = (Ok tt, self')
    /\ candidate = sample_gaussian [1] [0]
                     [[sqrt (mget (batch_cov unscheduled_3 batch_1d) 0 0)]]
    /\ proposal exp64 self' [1] [0] None
       = Ok (candidate,
             exp64 (Rmin 0 (log_pdf (target unscheduled_3) candidate
                          - log_pdf (target unscheduled_3) [0])),
             log_pdf (target unscheduled_3) candidate).
Proof.
  exact (batch_then_proposal cholesky_1x1 exp64 unscheduled_3 batch_1d _ [1] [0] None
           batch_1d_factorises).
Defined.

(** X13: the dimension of the batch binds later updates.  After a
    successful [set_batch_covariance] on samples of dimension [d], a call of
    [update] on a scheduled controller with an observation of any other
    length raises [DimensionMismatch], also when that length is the
    configured [D], and leaves the batch estimate in place with the counter
    advanced. *)
Theorem batch_then_update_mismatch (cholupdate : option (mat -> vec -> mat))
    (cholesky : mat -> option mat) (np_exp np_log : R -> R) (self : AdaptiveMetropolis)
    (Z : mat) (N d : nat) (L : mat) (z_new : vec) (previous_accpept_prob : R)
    (sch : nat -> R) :
  shape N d Z -> (1 <= N)%nat ->
  cholesky (batch_cov self Z) = Some L ->
  schedule self = Some sch ->
  0 <= sch (t self + 1)%nat <= 1 ->
  length z_new <> d ->
  exists self1 self2,
    set_batch_covariance cholesky Z self = (Ok tt, self1)
    /\ update cholupdate cholesky np_exp np_log z_new previous_accpept_prob self1
       = (Raise DimensionMismatch, self2)
    /\ mu self2 = Some (mean_axis0 Z) /\ L_C self2 = Some L
    /\ t self2 = (t self + 1)%nat.
Proof.
  intros HZ HN Hc Hs Hl Hlen.
  destruct N as [|N]; [lia|].
  rewrite set_batch_covariance_outcome, Hc.
  do 2 eexists; split; [reflexivity|].
  rewrite (update_scheduled _ _ _ _ _ _ _ sch) by exact Hs; cbn.
  rewrite covariance_update_mismatch; [repeat split; reflexivity | exact Hl |].
  intros [H _]; unfold mean_axis0 in H; rewrite length_mk_vec in H.
  rewrite (shape_ncols N d Z HZ) in H; congruence.
Qed.

Lemma batch_then_update_mismatch_witness :
  D scheduled_3 = length [1; 1; 1]
  /\ exists self1 self2,
       set_batch_covariance cholesky_1x1 batch_1d scheduled_3 = (Ok tt, self1)
       /\ update None cholesky_1x1 exp64 ln [1; 1; 1] (1 / 2) self1
          = (Raise DimensionMismatch, self2)
       /\ mu self2 = Some (mean_axis0 batch_1d)
       /\ L_C self2 = Some [[sqrt (mget (batch_cov scheduled_3 batch_1d) 0 0)]]
       /\ t self2 = (t scheduled_3 + 1)%nat.
Proof.
  split; [reflexivity|].
  apply (batch_then_update_mismatch None cholesky_1x1 exp64 ln scheduled_3 batch_1d 2 1 _
           [1; 1; 1] (1 / 2) harmonic).
  - split; [reflexivity|]. intros r [<-|[<-|[]]]; reflexivity.
  - lia.
  - unfold cholesky_1x1.
    rewrite (proj2 (Rltb_true 0 _)); [reflexivity|].
    cbn; lra.
  - reflexivity.
  - change (t scheduled_3 + 1)%nat with 1%nat; rewrite harmonic_1; lra.
  - simpl; lia.
Defined.

(** ** Construction and the first update *)

Lemma init_accepts (target : Target) (D : nat) (nu2 gamma2 : R)
    (schedule : option (nat -> R)) (acc_star : option R) :
  (forall a, acc_star = Some a -> 0 < a < 1) ->
  (forall f, schedule = Some f ->
     (forall k, (k < probes)%nat -> 0 <= f k)
     /\ (forall i j, (i < j)%nat -> (j < probes)%nat -> f j <= f i)) ->
  __init__ target D nu2 gamma2 schedule acc_star
  = Ok (_initialise (mkAM target D nu2 gamma2 schedule acc_star 0 None None)).
Proof.
  intros Ha Hs; rewrite init_outcome.
  assert (E : match acc_star with None => true | Some a => Rltb 0 a && Rltb a 1 end = true).
  { destruct acc_star as [a|]; [|reflexivity]. now apply acc_star_check, Ha. }
  rewrite E; destruct schedule as [f|]; [|reflexivity].
  destruct (Hs f eq_refl) as [Hpos Hdec].
  assert (E1 : all_nonneg (map f (seq 0 probes)) = true).
  { apply all_nonneg_true; intros x Hx; apply in_map_iff in Hx as (k & <- & Hk).
    apply in_seq in Hk; apply Hpos; lia. }
  rewrite E1, rev_sort_nonincreasing, allclose_refl; [reflexivity|].
  apply sorted_map_seq; intros i j _ Hij Hj; apply Rle_ge, Hdec; lia.
Qed.

Lemma init_scheduled_3 :
  __init__ flat_target 3 1 (1 / 100) (Some harmonic) None = Ok scheduled_3.
Proof.
  apply init_accepts.
  - discriminate 1.
  - intros f Hf; inversion Hf; split.
    + intros k _; apply harmonic_nonneg.
    + intros i j Hij _; now apply harmonic_nonincreasing.
Qed.

Lemma sum_n_delta (n i j : nat) :
  let total := sum_n n (fun k => (if (i =? k)%nat then 1 else 0)
                                 * (if (j =? k)%nat then 1 else 0)) in
  (i <> j \/ (n <= i)%nat -> total = 0)
  /\ (i = j -> (i < n)%nat -> total = 1).
Proof.
  induction n as [|n [IH0 IH1]]; simpl.
  - split; [reflexivity | lia].
  - simpl in IH0, IH1; split.
    + intros H; rewrite IH0 by lia.
      destruct (Nat.eqb_spec i n), (Nat.eqb_spec j n); try ring; lia.
    + intros <- Hi; destruct (Nat.eqb_spec i n) as [->|Hne].
      * rewrite IH0 by lia; ring.
      * rewrite IH1 by lia; ring.
Qed.

Lemma scaled_eye_product (n : nat) (s : R) (i j : nat) :
  (i < n)%nat -> (j < n)%nat ->
  mget (dot (mscale s (eye n)) (transpose (mscale s (eye n)))) i j
  = s * s * (if (i =? j)%nat then 1 else 0).
Proof.
  intros Hi Hj.
  rewrite (mget_dot_transpose n) by (auto; apply shape_mscale, shape_eye).
  rewrite (sum_n_ext _ _ (fun k => (s * s) * ((if (i =? k)%nat then 1 else 0)
                                              * (if (j =? k)%nat then 1 else 0)))).
  - rewrite sum_n_scale; destruct (sum_n_delta n i j) as [D0 D1]; simpl in D0, D1.
    destruct (Nat.eqb_spec i j); [rewrite D1 | rewrite D0]; auto.
  - intros k Hk; rewrite !mget_mscale, !mget_eye by auto; ring.
Qed.

Lemma scaled_eye_lower (n : nat) (s : R) : 0 < s -> lower_factor n (mscale s (eye n)).
Proof.
  intros Hs; split; [apply shape_mscale, shape_eye | split].
  - intros i j Hij Hj; rewrite mget_mscale, mget_eye by lia.
    destruct (Nat.eqb_spec i j); [lia | ring].
  - intros i Hi; rewrite mget_mscale, mget_eye, Nat.eqb_refl by auto; lra.
Qed.

(** X14: what the constructor leaves.  A constructed controller has
    [t = 0]; without a schedule it holds neither mean nor factor; with one
    it holds the zero mean of length [D] and a [D] by [D] factor whose
    product with its transpose is [nu2 * I] when [nu2] is non-negative, a
    lower triangular factor with a positive diagonal when [nu2] is
    positive. *)
Theorem initial_estimate (tgt : Target) (dim : nat) (scale floor : R)
    (sched : option (nat -> R)) (acc : option R) (self : AdaptiveMetropolis) :
  __init__ tgt dim scale floor sched acc = Ok self ->
  t self = 0%nat
  /\ (sched = None -> mu self = None /\ L_C self = None)
  /\ (sched <> None ->
      mu self = Some (zeros dim)
      /\ exists L, L_C self = Some L /\ shape dim dim L
         /\ (0 <= scale -> forall i j, (i < dim)%nat -> (j < dim)%nat ->
               mget (dot L (transpose L)) i j = scale * (if (i =? j)%nat then 1 else 0))
         /\ (0 < scale -> lower_factor dim L)).
Proof.
  intros H; apply init_returns in H; subst self.
  unfold _initialise; destruct sched as [f|];
    cbn [schedule set_t set_mu set_L_C t mu L_C nu2 D].
  - split; [reflexivity|]. split; [discriminate 1|].
    intros _; split; [reflexivity|].
    eexists; split; [reflexivity|].
    split; [apply shape_mscale, shape_eye|]. split.
    + intros Hnu i j Hi Hj; rewrite scaled_eye_product, sqrt_sqrt by auto; reflexivity.
    + intros Hnu; apply scaled_eye_lower; now apply sqrt_lt_R0.
  - split; [reflexivity|]. split; [intros _; split; reflexivity|].
    intros Hn; now elim Hn.
Qed.

Lemma initial_estimate_witness :
  t scheduled_3 = 0%nat
  /\ (Some harmonic = None -> mu scheduled_3 = None /\ L_C scheduled_3 = None)
  /\ (Some harmonic <> None ->
      mu scheduled_3 = Some (zeros 3)
      /\ exists L, L_C scheduled_3 = Some L /\ shape 3 3 L
         /\ (0 <= 1 -> forall i j, (i < 3)%nat -> (j < 3)%nat ->
               mget (dot L (transpose L)) i j = 1 * (if (i =? j)%nat then 1 else 0))
         /\ (0 < 1 -> lower_factor 3 L)).
Proof.
  exact (initial_estimate flat_target 3 1 (1 / 100) (Some harmonic) None scheduled_3
           init_scheduled_3).
Defined.

(** X15: a freshly constructed scheduled controller enforces its
    dimension.  With a first weight in [0,1], the first call of [update]
    raises [DimensionMismatch] exactly when the observation does not have
    length [D]. *)
Theorem fresh_update_checks_dimension (cholupdate : option (mat -> vec -> mat))
    (cholesky : mat -> option mat) (np_exp np_log : R -> R) (tgt : Target) (dim : nat) (scale floor : R)
    (sch : nat -> R) (acc : option R) (self : AdaptiveMetropolis)
    (z_new : vec) (previous_accpept_prob : R) :
  __init__ tgt dim scale floor (Some sch) acc = Ok self ->
  0 <= sch 1%nat <= 1 ->
  (fst (update cholupdate cholesky np_exp np_log z_new previous_accpept_prob self)
   = Raise DimensionMismatch
   <-> length z_new <> dim).
Proof.
  intros H Hl; apply init_returns in H; subst self.
  rewrite (update_scheduled _ _ _ _ _ _ _ sch) by reflexivity.
  cbn [_initialise schedule set_t set_mu set_L_C t mu L_C nu2 gamma2 acc_star D Nat.add].
  destruct (Nat.eq_dec (length z_new) dim) as [E|E].
  - split; [|intros Hn; now elim Hn].
    intros Hr; exfalso.
    pose proof (covariance_update_matching cholupdate cholesky z_new (sch 1%nat)
                  (Some (zeros dim)) (Some (mscale (sqrt scale) (eye dim))) scale
                  (Some floor) Hl) as Hm.
    destruct (covariance_update _ _ _ _ _ _ _ _) as [[m L]|e].
    + destruct acc; discriminate Hr.
    + cbn in Hr; inversion Hr; subst e; apply Hm; [|reflexivity].
      split; [rewrite length_zeros; auto | rewrite E; apply shape_mscale, shape_eye].
  - split; [auto|]. intros _.
    rewrite covariance_update_mismatch; [reflexivity | exact Hl |].
    intros [Hlen _]; rewrite length_zeros in Hlen; congruence.
Qed.

Lemma fresh_update_checks_dimension_witness :
  fst (update None cholesky_1x1 exp64 ln [1] (1 / 2) scheduled_3) = Raise DimensionMismatch
  <-> length [1] <> 3%nat.
Proof.
  apply (fresh_update_checks_dimension None cholesky_1x1 exp64 ln flat_target 3 1 (1 / 100)
           harmonic None scheduled_3 [1] (1 / 2)).
  - exact init_scheduled_3.
  - rewrite harmonic_1; lra.
Defined.

(** X16: the upper bound on the weights is enforced by [update] only.  A
    schedule with non-negative, non-increasing probed values is accepted by
    the constructor also when its values exceed one; if the weight at
    index one exceeds one, the first call of [update] raises
    [InvalidParameter], whatever the observation, and leaves the controller
    with the counter at one. *)
Theorem weight_above_one (cholupdate : option (mat -> vec -> mat))
    (cholesky : mat -> option mat) (np_exp np_log : R -> R) (tgt : Target) (dim : nat) (scale floor : R)
    (sch : nat -> R) (acc : option R) :
  (forall a, acc = Some a -> 0 < a < 1) ->
  (forall k, (k < probes)%nat -> 0 <= sch k) ->
  (forall i j, (i < j)%nat -> (j < probes)%nat -> sch j <= sch i) ->
  1 < sch 1%nat ->
  exists self,
    __init__ tgt dim scale floor (Some sch) acc = Ok self
    /\ forall z_new previous_accpept_prob,
         update cholupdate cholesky np_exp np_log z_new previous_accpept_prob self
         = (Raise InvalidParameter, set_t self 1).
Proof.
  intros Ha Hpos Hdec Hbig.
  eexists; split.
  - apply init_accepts; auto.
    intros f Hf; inversion Hf; subst f; split; auto.
  - intros z p.
    rewrite (update_scheduled _ _ _ _ _ _ _ sch) by reflexivity.
    cbn [_initialise schedule set_t set_mu set_L_C t mu L_C nu2 gamma2 acc_star D Nat.add].
    rewrite covariance_update_invalid by lra; reflexivity.
Qed.

Lemma weight_above_one_witness :
  exists self,
    __init__ flat_target 1 1 (1 / 100) (Some constant_two) None = Ok self
    /\ forall z_new previous_accpept_prob,
         update None cholesky_1x1 exp64 ln z_new previous_accpept_prob self
         = (Raise InvalidParameter, set_t self 1).
Proof.
  apply (weight_above_one None cholesky_1x1 exp64 ln flat_target 1 1 (1 / 100) constant_two None).
  - discriminate 1.
  - intros k _; unfold constant_two; lra.
  - intros i j _ _; unfold constant_two; lra.
  - unfold constant_two; lra.
Defined.

(** X17: the scale adaptation is monotone in the acceptance probability.
    With a schedule and a target rate configured and [nu2] positive, a call
    of [update] whose covariance update goes through stores, for a higher
    previous acceptance
    probability, a [nu2] that is not smaller (for an exponential that never
    decreases); with the acceptance probability at the target, or with
    weight zero, it stores [np.exp(np.log(nu2))]. *)
Theorem scale_adaptation_direction (cholupdate : option (mat -> vec -> mat))
    (cholesky : mat -> option mat) (np_exp np_log : R -> R) (self : AdaptiveMetropolis)
    (z_new : vec) (p1 p2 : R) (sch : nat -> R) (a : R) :
  np_exp_spec np_exp ->
  0 < nu2 self ->
  schedule self = Some sch ->
  acc_star self = Some a ->
  0 <= sch (t self + 1)%nat <= 1 ->
  dims_ok (length z_new) (mu self) (L_C self) ->
  (cholupdate = None ->
   cholesky (naive_update_cov z_new (sch (t self + 1)%nat)
               (start_mean (length z_new) (mu self) (L_C self))
               (start_factor (length z_new) (mu self) (L_C self) (nu2 self))
               (nu2 self) (Some (gamma2 self))) <> None) ->
  p1 <= p2 ->
  exists self1 self2,
    update cholupdate cholesky np_exp np_log z_new p1 self = (Ok tt, self1)
    /\ update cholupdate cholesky np_exp np_log z_new p2 self = (Ok tt, self2)
    /\ nu2 self1 <= nu2 self2
    /\ (p1 = a \/ sch (t self + 1)%nat = 0 -> nu2 self1 = np_exp (np_log (nu2 self))).
Proof.
  intros (_ & Hmono & _) _ Hs Ha Hl Hd Hc Hp.
  destruct (update_adapts cholupdate cholesky np_exp np_log self z_new p1 sch a
              Hs Ha Hl Hd Hc) as (self1 & Hu1 & _ & Hn1).
  destruct (update_adapts cholupdate cholesky np_exp np_log self z_new p2 sch a
              Hs Ha Hl Hd Hc) as (self2 & Hu2 & _ & Hn2).
  exists self1, self2; split; [exact Hu1|]. split; [exact Hu2|].
  rewrite Hn1, Hn2; split.
  - apply Hmono; nra.
  - intros H; f_equal; destruct H as [-> | ->]; ring.
Qed.

Lemma scale_adaptation_direction_witness :
  exists self1 self2,
    update None cholesky_1x1 exp64 ln [1] (1 / 10) adapting = (Ok tt, self1)
    /\ update None cholesky_1x1 exp64 ln [1] (1 / 2) adapting = (Ok tt, self2)
    /\ nu2 self1 <= nu2 self2
    /\ (1 / 10 = 234 / 1000 \/ harmonic (t adapting + 1) = 0 ->
        nu2 self1 = exp64 (ln (nu2 adapting))).
Proof.
  apply (scale_adaptation_direction None cholesky_1x1 exp64 ln adapting [1]
           (1 / 10) (1 / 2) harmonic (234 / 1000)).
  - exact exp64_spec.
  - change (nu2 adapting) with 1; lra.
  - reflexivity.
  - reflexivity.
  - change (t adapting + 1)%nat with 1%nat; rewrite harmonic_1; lra.
  - exact (dims_ok_initial_1 _).
  - intros _; apply (adapting_factorises _ 0).
    change (t adapting + 1)%nat with 1%nat; rewrite harmonic_1; lra.
  - lra.
Defined.

(** X18: uphill moves are always accepted.  When the candidate's
    log-density is at least the current one, the acceptance probability
    [proposal] returns is exactly one, for an exponential that is one at
    zero; an absent current log-density is evaluated on the target at
    [current]. *)
Theorem acceptance_uphill (np_exp : R -> R) (self : AdaptiveMetropolis) (z current : vec)
    (current_log_pdf : option R) (L : mat) :
  np_exp_spec np_exp ->
  L_C self = Some L ->
  schedule self <> None \/ mu self <> None ->
  let c := match current_log_pdf with
           | Some c => c
           | None => log_pdf (target self) current
           end in
  exists candidate acc candidate_log_pdf,
    proposal np_exp self z current current_log_pdf = Ok (candidate, acc, candidate_log_pdf)
    /\ candidate_log_pdf = log_pdf (target self) candidate
    /\ (c <= candidate_log_pdf -> acc = 1).
Proof.
  intros (_ & _ & H0) HL Hr c; unfold proposal; rewrite HL.
  assert (Hg : (match schedule self with Some _ => false | None => true end
                && (match mu self with Some _ => false | None => true end || false))
               = false).
  { destruct (schedule self), (mu self); try reflexivity.
    destruct Hr as [Hr|Hr]; now elim Hr. }
  rewrite Hg; fold c.
  do 3 eexists; split; [reflexivity|]. split; [reflexivity|].
  intros Hc; rewrite Rmin_left by lra; exact H0.
Qed.

Lemma acceptance_uphill_witness :
  exists candidate acc candidate_log_pdf,
    proposal exp64 scheduled [1] [0] None = Ok (candidate, acc, candidate_log_pdf)
    /\ candidate_log_pdf = log_pdf (target scheduled) candidate
    /\ (log_pdf (target scheduled) [0] <= candidate_log_pdf -> acc = 1).
Proof.
  apply (acceptance_uphill exp64 scheduled [1] [0] None (mscale (sqrt 1) (eye 1))).
  - exact exp64_spec.
  - reflexivity.
  - left; discriminate.
Defined.

(** X19: [update] reads the schedule at the incremented counter only.  Two
    schedules that agree at index [t+1] give the same outcome and the same
    new counter, mean, factor and [nu2]; in particular the weight at index
    zero, which the constructor probes, is never used by [update]. *)
Theorem update_uses_next_weight (cholupdate : option (mat -> vec -> mat))
    (cholesky : mat -> option mat) (np_exp np_log : R -> R) (self : AdaptiveMetropolis)
    (z_new : vec) (previous_accpept_prob : R) (sch sch' : nat -> R) :
  schedule self = Some sch ->
  sch' (t self + 1)%nat = sch (t self + 1)%nat ->
  update cholupdate cholesky np_exp np_log z_new previous_accpept_prob (set_schedule self (Some sch'))
  = (fst (update cholupdate cholesky np_exp np_log z_new previous_accpept_prob self),
     set_schedule (snd (update cholupdate cholesky np_exp np_log z_new previous_accpept_prob self))
                  (Some sch')).
Proof.
  intros Hs Heq.
  rewrite (update_scheduled _ _ _ _ (set_schedule self (Some sch')) _ _ sch') by reflexivity.
  rewrite (update_scheduled _ _ _ _ self _ _ sch Hs).
  cbn [set_schedule t mu L_C nu2 gamma2 acc_star]; rewrite Heq.
  destruct (covariance_update _ _ _ _ _ _ _ _) as [[m L]|e]; [|reflexivity].
  destruct (acc_star self); reflexivity.
Qed.

Lemma update_uses_next_weight_witness :
  update None cholesky_1x1 exp64 ln [1] (1 / 2) (set_schedule scheduled (Some (fun _ => 1 / 2)))
  = (fst (update None cholesky_1x1 exp64 ln [1] (1 / 2) scheduled),
     set_schedule (snd (update None cholesky_1x1 exp64 ln [1] (1 / 2) scheduled))
                  (Some (fun _ => 1 / 2))).
Proof.
  apply (update_uses_next_weight None cholesky_1x1 exp64 ln scheduled [1] (1 / 2) harmonic
           (fun _ => 1 / 2)).
  - reflexivity.
  - change (t scheduled + 1)%nat with 1%nat; now rewrite harmonic_1.
Defined.

(** ** Readiness in reachable states *)

Section Readiness.

Variable cholupdate : option (mat -> vec -> mat).
Variable cholesky : mat -> option mat.
Variables np_exp np_log : R -> R.

Lemma reachable_mean_with_factor (self : AdaptiveMetropolis) :
  reachable cholupdate cholesky np_exp np_log self -> L_C self <> None -> mu self <> None.
Proof.
  induction 1 as [? ? ? ? sch ? self Hi | self z p r self' _ IH Hu | self Z r self' _ IH Hb].
  - apply init_returns in Hi; subst self.
    unfold _initialise; destruct sch; cbn; [discriminate | auto].
  - destruct (schedule self) as [sch|] eqn:Hs.
    + rewrite (update_scheduled _ _ _ _ _ _ _ sch Hs) in Hu.
      destruct (covariance_update _ _ _ _ _ _ _ _) as [[m L]|e].
      * destruct (acc_star self); inversion Hu; subst; cbn; discriminate.
      * inversion Hu; subst; cbn; exact IH.
    + rewrite update_unscheduled in Hu by auto; inversion Hu; subst; cbn; exact IH.
  - rewrite set_batch_covariance_outcome in Hb.
    destruct (cholesky _); inversion Hb; subst; cbn; discriminate.
Qed.

(** X20: in every state a controller can reach, the factor alone decides
    readiness: [proposal] raises [NotReady] exactly when the factor is
    absent, and then no schedule is configured; a present factor always
    comes with a mean. *)
Theorem ready_iff_factor (self : AdaptiveMetropolis) (z current : vec)
    (current_log_pdf : option R) :
  reachable cholupdate cholesky np_exp np_log self ->
  (proposal np_exp self z current current_log_pdf = Raise NotReady <-> L_C self = None)
  /\ (L_C self = None -> schedule self = None)
  /\ (L_C self <> None -> mu self <> None).
Proof.
  intros Hr.
  pose proof (reachable_estimate_present _ _ _ _ _ Hr) as He.
  pose proof (reachable_mean_with_factor _ Hr) as Hm.
  unfold estimate_present in He.
  assert (Hsched : L_C self = None -> schedule self = None).
  { intros HL; destruct (schedule self); [|reflexivity].
    destruct He as [_ H]; [discriminate | now elim H]. }
  split; [|split; auto].
  unfold proposal; destruct (L_C self) as [L|] eqn:HL.
  - destruct (mu self) as [m|]; [|elim Hm; [discriminate | reflexivity]].
    rewrite andb_false_r; split; discriminate 1.
  - rewrite (Hsched eq_refl), orb_true_r; split; reflexivity.
Qed.

End Readiness.

Lemma ready_iff_factor_witness :
  (proposal exp64 unscheduled [1] [0] None = Raise NotReady <-> L_C unscheduled = None)
  /\ (L_C unscheduled = None -> schedule unscheduled = None)
  /\ (L_C unscheduled <> None -> mu unscheduled <> None).
Proof.
  apply (ready_iff_factor None cholesky_1x1 exp64 ln unscheduled [1] [0] None).
  apply (reach_init _ _ _ _ flat_target 1%nat 1 (1 / 100) None None); reflexivity.
Defined.
